(** * OpenRC plugin handler (src/rc/rc-plugin.c)

    A shallow embedding of the plugin registry ([rc_plugin_load],
    [rc_plugin_unload]), of the reaper [rc_waitpid] and of the hook
    dispatcher [rc_plugin_run] with its environment-channel decoder,
    followed by the properties the specification states about them.

    The C code is written against libc and the kernel.  Their answers
    (directory listing, [dlopen], [pipe], [fork], [read], [waitpid]) are
    inputs of the model, gathered in the record [world]; everything the
    C code itself decides is computed by the definitions below. *)

From Stdlib Require Import ZArith Ascii String.
From stdpp Require Import base tactics option list gmap strings.

Local Open Scope Z_scope.
Local Open Scope nat_scope.

(** ** Outcomes *)

(** The ways in which the C code leaves defined behaviour. *)
Inductive fault :=
  | NullDeref       (* [*p] with [p == NULL] *)
  | OutOfBounds     (* a read or a scan that leaves the buffer *)
  | UseAfterFree.   (* access through a pointer to a freed [plugin_t] *)

(** What running a piece of the code yields: it returns, or it stops at a
    fault (the state is the one reached when the fault happens), or the
    model's step budget ran out. *)
Inductive outcome (A : Type) :=
  | Done (a : A)
  | Fault (f : fault) (a : A)
  | OutOfFuel.
Arguments Done {A} a.
Arguments Fault {A} f a.
Arguments OutOfFuel {A}.

(** ** The host environment *)

(** The environment is the table libc keeps behind [getenv], [setenv] and
    [unsetenv]. *)
Abbreviation env := (gmap string string).

Definition NUL : ascii := Ascii.zero.
Definition EQUALS : ascii := "="%char.

(** The bytes of a string, without a terminator. *)
Fixpoint bytes (s : string) : list ascii :=
  match s with
  | EmptyString => []
  | String c s' => c :: bytes s'
  end.

(** POSIX: [setenv] and [unsetenv] fail with [EINVAL], changing nothing,
    when the name is empty or contains ['=']. *)
Definition valid_name (name : string) : bool :=
  match name with
  | EmptyString => false
  | _ => negb (existsb (Ascii.eqb EQUALS) (bytes name))
  end.

Definition unsetenv (name : string) (e : env) : env :=
  if valid_name name then delete name e else e.

(** [setenv (name, value, 1)]: the code always asks to overwrite. *)
Definition setenv (name value : string) (e : env) : env :=
  if valid_name name then <[name := value]> e else e.

(** ** C strings in a byte buffer *)

(** A pointer into the read buffer is an offset from its start; the
    memory [m] is the buffer itself.  An access outside [m] is a fault. *)

(** The C string that starts at the head of [m]: the bytes before the
    first NUL, or [None] when [m] ends before one is found. *)
Fixpoint cstr (m : list ascii) : option string :=
  match m with
  | [] => None
  | c :: m' =>
      if Ascii.eqb c NUL then Some EmptyString
      else String c <$> cstr m'
  end.

Definition cstring (m : list ascii) (p : nat) : option string :=
  cstr (drop p m).

(** What the scan of [strsep (&p, "=")] finds first. *)
Inductive scan :=
  | Delim (n : nat)    (* an ['='], [n] bytes ahead *)
  | Term (n : nat)     (* the terminating NUL, [n] bytes ahead *)
  | Overrun.           (* neither before the memory ends *)

Fixpoint scan_eq (m : list ascii) : scan :=
  match m with
  | [] => Overrun
  | c :: m' =>
      if Ascii.eqb c EQUALS then Delim 0
      else if Ascii.eqb c NUL then Term 0
      else match scan_eq m' with
           | Delim n => Delim (S n)
           | Term n => Term (S n)
           | Overrun => Overrun
           end
  end.

(** [token = strsep (&p, "=")] for a non-null [p]: the token always starts
    at the old [p].  When an ['='] is found it is overwritten with NUL and
    [p] moves just past it; otherwise [p] becomes [NULL] ([None]).
    Returns the memory, the token and the new [p]. *)
Definition strsep (m : list ascii) (p : nat)
  : option (list ascii * nat * option nat) :=
  match scan_eq (drop p m) with
  | Delim n => Some (<[p + n := NUL]> m, p, Some (p + n + 1))
  | Term _ => Some (m, p, None)
  | Overrun => None
  end.

(** ** The environment-channel decoder *)

(** The inner loop of [rc_plugin_run], over one chunk of [nr] bytes that
    [read] left at the start of the buffer:
<<
    p = buffer;
    while ( *p && p - buffer < nr ) {
        token = strsep (&p, "=");
        if (token) {
            unsetenv (token);
            if ( *p ) { setenv (token, p, 1); p += strlen (p) + 1; }
            else p++;
        }
    }
>>
    [token] is never null here, since [p] is not null when [strsep] is
    called.  Every turn moves [p] forward, so [S nr] turns are enough
    (see [decode_loop_fuel]). *)
Fixpoint decode_loop (fuel nr : nat) (m : list ascii) (p : nat) (e : env)
  : outcome (list ascii * env) :=
  match fuel with
  | 0 => OutOfFuel
  | S fuel' =>
      match m !! p with
      | None => Fault OutOfBounds (m, e)
      | Some c =>
          if Ascii.eqb c NUL then Done (m, e)
          else if negb (p <? nr) then Done (m, e)
          else
            match strsep m p with
            | None => Fault OutOfBounds (m, e)
            | Some (m1, token, p1) =>
                match cstring m1 token with
                | None => Fault OutOfBounds (m1, e)
                | Some name =>
                    let e1 := unsetenv name e in
                    match p1 with
                    | None => Fault NullDeref (m1, e1)
                    | Some q =>
                        match m1 !! q with
                        | None => Fault OutOfBounds (m1, e1)
                        | Some c' =>
                            if Ascii.eqb c' NUL
                            then decode_loop fuel' nr m1 (q + 1) e1
                            else
                              match cstring m1 q with
                              | None => Fault OutOfBounds (m1, e1)
                              | Some value =>
                                  decode_loop fuel' nr m1
                                    (q + String.length value + 1)
                                    (setenv name value e1)
                              end
                        end
                    end
                end
            end
      end
  end.

Definition decode_chunk (nr : nat) (m : list ascii) (e : env)
  : outcome (list ascii * env) :=
  decode_loop (S nr) nr m 0 e.

(** [read (pfd[0], buffer, BUFSIZ)] overwrites the start of the buffer
    with the bytes it returns and leaves the rest as it was. *)
Definition sys_read_into (chunk m : list ascii) : list ascii :=
  chunk ++ drop (length chunk) m.

(** The outer loop, [while ((nr = read (pfd[0], buffer, BUFSIZ)) > 0)].
    [chunks] are the results of the successive calls; the kernel returns
    at most [bufsiz] bytes per call, and the loop ends at the first call
    that returns nothing (end of file) or fails. *)
Fixpoint read_loop (bufsiz : nat) (chunks : list (list ascii))
    (m : list ascii) (e : env) : outcome (list ascii * env) :=
  match chunks with
  | [] => Done (m, e)
  | chunk :: rest =>
      let got := take bufsiz chunk in
      match got with
      | [] => Done (m, e)
      | _ =>
          match decode_chunk (length got) (sys_read_into got m) e with
          | Done (m', e') => read_loop bufsiz rest m' e'
          | other => other
          end
      end
  end.

(** ** ProcessWait: [rc_waitpid] *)

(** The wait-status macros of <sys/wait.h> and [EXIT_FAILURE] of
    <stdlib.h> are not part of the repository; these are the Linux and
    BSD definitions.  [W_EXITCODE] is the status word the kernel builds
    for a process that called [exit (ret)] or was killed by [sig]. *)
Definition WIFEXITED (status : Z) : bool := (Z.land status 127 =? 0)%Z.
Definition WEXITSTATUS (status : Z) : Z := Z.shiftr (Z.land status 65280) 8.
Definition W_EXITCODE (ret sig : Z) : Z :=
  Z.lor (Z.shiftl (Z.land ret 255) 8) (Z.land sig 127).
Definition EXIT_FAILURE : Z := 1%Z.

(** The loop [while ((pid = waitpid (savedpid, &status, 0)) > 0)].
    [answers] are the (pid, status) pairs the successive calls return;
    when they are used up [waitpid] fails (no child is left to wait for). *)
Fixpoint waitpid_loop (savedpid : Z) (answers : list (Z * Z)) (retval : Z) : Z :=
  match answers with
  | [] => retval
  | (pid, status) :: rest =>
      if (0 <? pid)%Z then
        waitpid_loop savedpid rest
          (if (pid =? savedpid)%Z
           then (if WIFEXITED status then WEXITSTATUS status else EXIT_FAILURE)
           else retval)
      else retval
  end.

Definition rc_waitpid (pid : Z) (answers : list (Z * Z)) : Z :=
  waitpid_loop pid answers (-1)%Z.

(** ** Plugins, the registry and the process state *)

(** [rc_hook_t] is an enumeration of rc.h; the handler only passes it on. *)
Definition rc_hook_t := Z.

(** What a hook does when it runs in its subprocess, as the parent can
    see it: the bytes it wrote to [rc_environ_fd], and either the integer
    it returned or the signal that killed it. *)
Inductive hook_result :=
  | Returns (out : list ascii) (retval : Z)
  | Killed (out : list ascii) (sig : Z).

Definition output (r : hook_result) : list ascii :=
  match r with Returns out _ | Killed out _ => out end.

(** The function behind [int ( *hook) (rc_hook_t, const char * )]; besides
    its two arguments it sees the environment its process inherited. *)
Definition hook_fn := rc_hook_t → string → env → hook_result.

(** A [void *] returned by [dlopen], and the address of a [plugin_t]. *)
Abbreviation dl_handle := nat.
Abbreviation addr := nat.
(** A [plugin_t *]: [None] is [NULL]. *)
Abbreviation ptr := (option addr).

Record plugin_t := {
  name : string;
  handle : dl_handle;
  hook : option hook_fn;
  next : ptr
}.

(** What the handler does that can be seen from outside. *)
Inductive event :=
  | Eerror (msg : string)                      (* einfo's [eerror] *)
  | Forked (plugin : string) (pid : Z) (e : env)
      (* a subprocess was forked for that plugin; it inherits [e] *)
  | Reaped (pid retval : Z).                   (* what [rc_waitpid] returned *)

(** The state of the host process.  The heap holds the [plugin_t] cells:
    an address is an index, [Some c] is a live cell and [None] a freed
    one; [xmalloc] always hands out a new address.  [tick] and [log] are
    not variables of the C code: [tick] numbers the dispatches, so that
    the kernel can answer each one differently, and [log] records what
    the handler does, in order. *)
Record state := {
  rc_in_plugin : bool;
  plugins : ptr;
  heap : list (option plugin_t);
  dl_open : list dl_handle;      (* references held on loaded objects *)
  environ : env;
  sigmask : list nat;            (* the blocked signals *)
  tick : nat;                    (* dispatches attempted so far *)
  log : list event
}.

Definition set_plugins (p : ptr) (s : state) : state :=
  {| rc_in_plugin := rc_in_plugin s; plugins := p; heap := heap s;
     dl_open := dl_open s; environ := environ s; sigmask := sigmask s;
     tick := tick s; log := log s |}.
Definition set_heap (h : list (option plugin_t)) (s : state) : state :=
  {| rc_in_plugin := rc_in_plugin s; plugins := plugins s; heap := h;
     dl_open := dl_open s; environ := environ s; sigmask := sigmask s;
     tick := tick s; log := log s |}.
Definition set_dl_open (d : list dl_handle) (s : state) : state :=
  {| rc_in_plugin := rc_in_plugin s; plugins := plugins s; heap := heap s;
     dl_open := d; environ := environ s; sigmask := sigmask s;
     tick := tick s; log := log s |}.
Definition set_environ (e : env) (s : state) : state :=
  {| rc_in_plugin := rc_in_plugin s; plugins := plugins s; heap := heap s;
     dl_open := dl_open s; environ := e; sigmask := sigmask s;
     tick := tick s; log := log s |}.
Definition set_sigmask (m : list nat) (s : state) : state :=
  {| rc_in_plugin := rc_in_plugin s; plugins := plugins s; heap := heap s;
     dl_open := dl_open s; environ := environ s; sigmask := m;
     tick := tick s; log := log s |}.
Definition set_tick (n : nat) (s : state) : state :=
  {| rc_in_plugin := rc_in_plugin s; plugins := plugins s; heap := heap s;
     dl_open := dl_open s; environ := environ s; sigmask := sigmask s;
     tick := n; log := log s |}.
Definition add_log (ev : event) (s : state) : state :=
  {| rc_in_plugin := rc_in_plugin s; plugins := plugins s; heap := heap s;
     dl_open := dl_open s; environ := environ s; sigmask := sigmask s;
     tick := tick s; log := log s ++ [ev] |}.

Definition eerror (msg : string) (s : state) : state :=
  {| rc_in_plugin := rc_in_plugin s; plugins := plugins s; heap := heap s;
     dl_open := dl_open s; environ := environ s; sigmask := sigmask s;
     tick := tick s; log := log s ++ [Eerror msg] |}.

Definition add_logs (t : list event) (s : state) : state :=
  {| rc_in_plugin := rc_in_plugin s; plugins := plugins s; heap := heap s;
     dl_open := dl_open s; environ := environ s; sigmask := sigmask s;
     tick := tick s; log := log s ++ t |}.

(** ** The outside world *)

(** What [fork] returns in the host process. *)
Inductive fork_result :=
  | ForkFailed                 (* -1 *)
  | ForkParent (pid : Z).      (* the child's pid *)

(** The kernel's answers during one dispatch. *)
Record syscalls := {
  sys_pipe : bool;                       (* [pipe (pfd)] succeeds *)
  sys_getfd : nat → Z;                   (* [fcntl (pfd[i], F_GETFD, 0)] *)
  sys_setfd : nat → Z → Z;               (* [fcntl (pfd[i], F_SETFD, flags)] *)
  sys_fork : fork_result;
  sys_read : list ascii → list (list ascii);
      (* how the bytes the child wrote come back from successive [read]s *)
  sys_wait : Z → list (Z * Z)
      (* given the child's status word, what successive [waitpid]s return *)
}.

Record world := {
  BUFSIZ : nat;                          (* <stdio.h> *)
  opendir : option (list string);
      (* the names [readdir] yields for RC_PLUGINDIR, in order;
         [None] when the directory cannot be opened *)
  dlopen : string → option dl_handle;
      (* [dlopen] of the path built from RC_PLUGINDIR and this name *)
  dlfunc : dl_handle → option hook_fn;   (* lookup of "rc_plugin_hook" *)
  kernel : nat → syscalls                (* answers for the n-th dispatch *)
}.

(** ** PluginRegistry: [rc_plugin_unload] and [rc_plugin_load] *)

(** [xmalloc (sizeof (plugin_t))]: a new cell at a new address.  Its
    contents are indeterminate; the code assigns all four fields before
    it reads any. *)
Definition blank : plugin_t :=
  {| name := EmptyString; handle := 0; hook := None; next := None |}.

Definition xmalloc (s : state) : addr * state :=
  (length (heap s), set_heap (heap s ++ [Some blank]) s).

Definition store (a : addr) (c : plugin_t) (s : state) : state :=
  set_heap (<[a := Some c]> (heap s)) s.

Definition free (a : addr) (s : state) : state :=
  set_heap (<[a := None]> (heap s)) s.

Definition set_next (n : ptr) (c : plugin_t) : plugin_t :=
  {| name := name c; handle := handle c; hook := hook c; next := n |}.

(** Drop one reference on [h]. *)
Fixpoint release (h : dl_handle) (l : list dl_handle) : list dl_handle :=
  match l with
  | [] => []
  | x :: l' => if Nat.eqb x h then l' else x :: release h l'
  end.

Definition sys_dlopen (h : dl_handle) (s : state) : state :=
  set_dl_open (h :: dl_open s) s.
Definition dlclose (h : dl_handle) (s : state) : state :=
  set_dl_open (release h (dl_open s)) s.

(** The loop of [rc_plugin_unload]:
<<
    while (plugin) {
        next = plugin->next;
        dlclose (plugin->handle);
        free (plugin->name);
        free (plugin);
        plugin = next;
    }
    plugins = NULL;
>>
    Every turn frees a live cell, so one more turn than the heap has
    cells is enough (see [rc_plugin_unload_fuel]). *)
Fixpoint unload_loop (fuel : nat) (plugin : ptr) (s : state) : outcome state :=
  match plugin with
  | None => Done (set_plugins None s)
  | Some a =>
      match fuel with
      | 0 => OutOfFuel
      | S fuel' =>
          match heap s !! a with
          | Some (Some c) =>
              unload_loop fuel' (next c) (free a (dlclose (handle c) s))
          | _ => Fault UseAfterFree s
          end
      end
  end.

Definition rc_plugin_unload (s : state) : outcome state :=
  unload_loop (S (length (heap s))) (plugins s) s.

(** [d->d_name[0] == '.'] *)
Definition hidden (d_name : string) : bool :=
  match d_name with
  | String c _ => Ascii.eqb c "."%char
  | EmptyString => false
  end.

Definition no_symbol (d_name : string) : string :=
  d_name +:+ ": cannot find symbol `rc_plugin_hook'".

(** The [readdir] loop of [rc_plugin_load]; [plugin] is the local
    variable of that name, the cell new records are linked after. *)
Fixpoint load_loop (w : world) (ents : list string) (plugin : ptr) (s : state)
  : outcome state :=
  match ents with
  | [] => Done s
  | d_name :: rest =>
      if hidden d_name then load_loop w rest plugin s
      else
        match dlopen w d_name with
        | None => load_loop w rest plugin (eerror "dlopen" s)
        | Some h =>
            let s := sys_dlopen h s in
            match dlfunc w h with
            | None =>
                load_loop w rest plugin (dlclose h (eerror (no_symbol d_name) s))
            | Some fptr =>
                let '(b, s) := xmalloc s in
                let cell := {| name := d_name; handle := h;
                               hook := Some fptr; next := None |} in
                match plugin with
                | Some a =>
                    (* plugin->next = xmalloc (...); plugin = plugin->next; *)
                    match heap s !! a with
                    | Some (Some c) =>
                        load_loop w rest (Some b)
                          (store b cell (store a (set_next (Some b) c) s))
                    | _ => Fault UseAfterFree s
                    end
                | None =>
                    (* plugin = plugins = xmalloc (...); *)
                    load_loop w rest (Some b)
                      (store b cell (set_plugins (Some b) s))
                end
            end
        end
  end.

(** [rc_plugin_load].  The local [plugin] is initialised from [plugins]
    in its declaration, before the call of [rc_plugin_unload]. *)
Definition rc_plugin_load (w : world) (s : state) : outcome state :=
  let plugin := plugins s in
  if rc_in_plugin s then Done s
  else
    match rc_plugin_unload s with
    | Done s1 =>
        match opendir w with
        | None => Done s1
        | Some ents => load_loop w ents plugin s1
        end
    | other => other
    end.

(** ** HookDispatcher: [rc_plugin_run] *)

Definition FD_CLOEXEC : Z := 1%Z.

(** The signal sets of Linux with glibc.  [sigfillset (&full)] puts in
    [full] the signals 1 to 64 without the two that the C library keeps
    for itself (32 and 33).  [sigprocmask (SIG_SETMASK, &full, &old)]
    then blocks the signals of [full] except SIGKILL and SIGSTOP, which
    the kernel never blocks: [sigfull] is the mask in force after it. *)
Definition SIGKILL : nat := 9.
Definition SIGSTOP : nat := 19.
Definition sigfillset : list nat :=
  filter (λ n, n ≠ 32 ∧ n ≠ 33) (seq 1 64).
Definition sigfull : list nat :=
  filter (λ n, n ≠ SIGKILL ∧ n ≠ SIGSTOP) sigfillset.

(** One turn of [for (i = 0; i < 2; i++)]: the condition of the [if]
    that guards [eerror ("fcntl: ...")]. *)
Definition cloexec_failed (o : syscalls) (i : nat) : bool :=
  (sys_getfd o i <? 0)%Z
  || (sys_setfd o i (Z.lor (sys_getfd o i) FD_CLOEXEC) <? 0)%Z.

Definition set_cloexec (o : syscalls) (s : state) : state :=
  foldl (λ s i, if cloexec_failed o i then eerror "fcntl" s else s) s [0; 1].

(** How a turn of the dispatch loop ends: control reaches the next turn,
    or the loop is left ([return], [break], or a fault). *)
Inductive flow :=
  | Next (s : state)
  | Exit (r : outcome state).

(** The body of [while (plugin)] for the cell [c] that [plugin] points
    to, up to [plugin = plugin->next]. *)
Definition run_body (w : world) (hk : rc_hook_t) (value : string)
    (c : plugin_t) (s : state) : flow :=
  match hook c with
  | None => Next s
  | Some f =>
      let o := kernel w (tick s) in
      let s := set_tick (S (tick s)) s in
      if negb (sys_pipe o) then Exit (Done (eerror "pipe" s))       (* return *)
      else
        let s := set_cloexec o s in
        let old := sigmask s in
        let s := set_sigmask sigfull s in
        match sys_fork o with
        | ForkFailed => Exit (Done (eerror "fork" s))               (* break *)
        | ForkParent pid =>
            (* the child: runs the hook on its copy of the process, exits *)
            let r := f hk value (environ s) in
            let status :=
              match r with
              | Returns _ retval => W_EXITCODE retval 0
              | Killed _ sig => W_EXITCODE 0 sig
              end in
            let s := add_log (Forked (name c) pid (environ s)) s in
            (* the parent *)
            let s := set_sigmask old s in
            match read_loop (BUFSIZ w) (sys_read o (output r))
                    (repeat NUL (BUFSIZ w)) (environ s) with
            | Done (_, e) =>
                let rv := rc_waitpid pid (sys_wait o status) in
                Next (add_log (Reaped pid rv) (set_environ e s))
            | Fault fl (_, e) => Exit (Fault fl (set_environ e s))
            | OutOfFuel => Exit OutOfFuel
            end
        end
  end.

(** The loop [while (plugin) { ...; plugin = plugin->next; }] on the
    heap.  The body never writes a cell, and a chain that ends with a
    null [next] has no more cells than the heap (see [lseg_length]), so
    one more turn than the heap has cells is enough. *)
Fixpoint run_loop (w : world) (hk : rc_hook_t) (value : string) (fuel : nat)
    (plugin : ptr) (s : state) : outcome state :=
  match plugin with
  | None => Done s
  | Some a =>
      match fuel with
      | 0 => OutOfFuel
      | S fuel' =>
          match heap s !! a with
          | Some (Some c) =>
              match run_body w hk value c s with
              | Next s' => run_loop w hk value fuel' (next c) s'
              | Exit r => r
              end
          | _ => Fault UseAfterFree s
          end
      end
  end.

Definition rc_plugin_run (w : world) (hk : rc_hook_t) (value : string)
    (s : state) : outcome state :=
  if rc_in_plugin s then Done s
  else run_loop w hk value (S (length (heap s))) (plugins s) s.

(** * Properties *)

(** ** The wire format, as the specification words it *)

(** One record [KEY=VALUE] followed by its NUL. *)
Definition record_bytes (r : string * string) : list ascii :=
  bytes r.1 ++ EQUALS :: bytes r.2 ++ [NUL].

Definition wire (rs : list (string * string)) : list ascii :=
  concat (map record_bytes rs).

(** The decoding rule of the specification for one record: KEY is first
    unset, then set again to VALUE when VALUE is not empty. *)
Definition apply_record (e : env) (r : string * string) : env :=
  let e1 := unsetenv r.1 e in
  match r.2 with
  | EmptyString => e1
  | _ => setenv r.1 r.2 e1
  end.

(** [c] does not occur in [s]. *)
Definition lacks (c : ascii) (s : string) : bool :=
  forallb (λ x, negb (Ascii.eqb x c)) (bytes s).

(** A record that the format can carry: no ['='] in the key (the split
    is at the first one) and no NUL in either part. *)
Definition well_formed (r : string * string) : Prop :=
  lacks EQUALS r.1 = true ∧ lacks NUL r.1 = true ∧ lacks NUL r.2 = true.

(** A chunk made of whole well-formed records that leaves at least one
    byte of the buffer unused. *)
Definition whole_records (bufsiz : nat) (rs : list (string * string)) : Prop :=
  rs ≠ [] ∧ Forall well_formed rs ∧ length (wire rs) < bufsiz.


(** The value [rc_waitpid] takes from the status of the pid it waits for. *)
Definition reaped_status (status : Z) : Z :=
  if WIFEXITED status then WEXITSTATUS status else EXIT_FAILURE.

(** ** The registry as a list *)

(** The cells met when following [next] from [from] until [to]. *)
Fixpoint lseg (h : list (option plugin_t)) (from to : ptr)
    (l : list plugin_t) : Prop :=
  match l with
  | [] => from = to
  | c :: l' => ∃ a, from = Some a ∧ h !! a = Some (Some c) ∧ lseg h (next c) to l'
  end.

(** The registry holds the cells [l], in this order: the chain that
    starts at [plugins] and ends with a null [next]. *)
Definition registry (s : state) (l : list plugin_t) : Prop :=
  lseg (heap s) (plugins s) None l.

(** What one record says about its plugin. *)
Definition entry_of (c : plugin_t) : string * dl_handle * option hook_fn :=
  (name c, handle c, hook c).

(** The plugins of a directory listing, as the specification describes
    them: names that start with a dot are skipped, so are those that
    cannot be opened and those without the hook symbol; the others are
    kept in scan order. *)
Fixpoint loadable (w : world) (ents : list string)
  : list (string * dl_handle * option hook_fn) :=
  match ents with
  | [] => []
  | d_name :: rest =>
      if hidden d_name then loadable w rest
      else
        match dlopen w d_name with
        | None => loadable w rest
        | Some h =>
            match dlfunc w h with
            | None => loadable w rest
            | Some f => (d_name, h, Some f) :: loadable w rest
            end
        end
  end.

(** What [rc_plugin_load] logs for a directory listing. *)
Fixpoint load_errors (w : world) (ents : list string) : list event :=
  match ents with
  | [] => []
  | d_name :: rest =>
      if hidden d_name then load_errors w rest
      else
        match dlopen w d_name with
        | None => Eerror "dlopen" :: load_errors w rest
        | Some h =>
            match dlfunc w h with
            | None => Eerror (no_symbol d_name) :: load_errors w rest
            | Some _ => load_errors w rest
            end
        end
  end.

(** The invariant of the [readdir] loop when it starts from an empty
    registry: the local [plugin] is null as long as nothing was loaded,
    and then points to the last cell of the chain [l]. *)
Definition tail_inv (s : state) (plugin : ptr) (l : list plugin_t) : Prop :=
  match plugin with
  | None => plugins s = None ∧ l = []
  | Some a =>
      ∃ l0 c, l = l0 ++ [c] ∧ lseg (heap s) (plugins s) (Some a) l0 ∧
              heap s !! a = Some (Some c) ∧ next c = None
  end.

(** The number of live cells. *)
Fixpoint live (h : list (option plugin_t)) : nat :=
  match h with
  | [] => 0
  | Some _ :: h' => S (live h')
  | None :: h' => live h'
  end.

(** The addresses of the cells of a chain that starts at [p]. *)
Fixpoint path (p : ptr) (l : list plugin_t) : list addr :=
  match l, p with
  | c :: l', Some a => a :: path (next c) l'
  | _, _ => []
  end.

(** The dispatch loop over the cells of the chain, in order: [Next] when
    control leaves the last of them for the following turn. *)
Fixpoint run_through (w : world) (hk : rc_hook_t) (value : string)
    (l : list plugin_t) (s : state) : flow :=
  match l with
  | [] => Next s
  | c :: l' =>
      match run_body w hk value c s with
      | Next s' => run_through w hk value l' s'
      | Exit r => Exit r
      end
  end.

Definition finish (f : flow) : outcome state :=
  match f with
  | Next s => Done s
  | Exit r => r
  end.

(** The state a run ends in, if it ends. *)
Definition final (r : outcome state) : option state :=
  match r with
  | Done s | Fault _ s => Some s
  | OutOfFuel => None
  end.

(** The subprocesses a log shows, with the environment each inherited. *)
Definition forks (t : list event) : list (string * env) :=
  omap (λ ev, match ev with Forked n _ e => Some (n, e) | _ => None end) t.

(** The state a turn of the loop ends in, if it ends. *)
Definition flow_state (f : flow) : option state := final (finish f).

(** The names of the cells that have a hook, in chain order. *)
Definition hooked (l : list plugin_t) : list string :=
  name <$> filter (λ c, is_Some (hook c)) l.

(** A kernel that differs only in that [fcntl] always succeeds. *)
Definition calm (o : syscalls) : syscalls :=
  {| sys_pipe := sys_pipe o;
     sys_getfd := λ _, 0%Z;
     sys_setfd := λ _ _, 0%Z;
     sys_fork := sys_fork o;
     sys_read := sys_read o;
     sys_wait := sys_wait o |}.

Definition calm_world (w : world) : world :=
  {| BUFSIZ := BUFSIZ w; opendir := opendir w; dlopen := dlopen w;
     dlfunc := dlfunc w; kernel := λ n, calm (kernel w n) |}.

(** A state without the log entries of failed [fcntl] calls. *)
Definition no_fcntl (ev : event) : bool :=
  match ev with
  | Eerror msg => negb (String.eqb msg "fcntl")
  | _ => true
  end.

Definition hush (s : state) : state :=
  {| rc_in_plugin := rc_in_plugin s; plugins := plugins s; heap := heap s;
     dl_open := dl_open s; environ := environ s; sigmask := sigmask s;
     tick := tick s; log := List.filter no_fcntl (log s) |}.

Definition hush_outcome (r : outcome state) : outcome state :=
  match r with
  | Done s => Done (hush s)
  | Fault f s => Fault f (hush s)
  | OutOfFuel => OutOfFuel
  end.

Definition hush_flow (f : flow) : flow :=
  match f with
  | Next s => Next (hush s)
  | Exit r => Exit (hush_outcome r)
  end.

(** ** A sample host *)

(** A host process at start-up, and a plugin directory with two plugins
    ([a.so] announces [X=1], [b.so] reports the [X] it sees and returns
    7), a library without the hook symbol and a file that is no library. *)
Definition host : state :=
  {| rc_in_plugin := false; plugins := None; heap := []; dl_open := [];
     environ := ∅; sigmask := []; tick := 0; log := [] |}.

Definition hook_a : hook_fn :=
  λ _ _ _, Returns (wire [("X", "1")]) 0.

Definition hook_b : hook_fn :=
  λ _ _ e,
    match e !! "X" with
    | Some x => Returns (wire [("SEEN", x)]) 7
    | None => Returns [] 7
    end.

(** A kernel on which every call succeeds: the n-th child gets pid
    [100 + n], its output arrives in one [read] and it is reaped once. *)
Definition kernel_ok (n : nat) : syscalls :=
  {| sys_pipe := true;
     sys_getfd := λ _, 0%Z;
     sys_setfd := λ _ _, 0%Z;
     sys_fork := ForkParent (100 + Z.of_nat n);
     sys_read := λ out, [out];
     sys_wait := λ status, [((100 + Z.of_nat n)%Z, status)] |}.

Definition plugindir (k : nat → syscalls) : world :=
  {| BUFSIZ := 64;
     opendir := Some ["."; ".."; "a.so"; "nohook.so"; "b.so"; "README"];
     dlopen := λ d_name,
       if String.eqb d_name "a.so" then Some 1
       else if String.eqb d_name "b.so" then Some 2
       else if String.eqb d_name "nohook.so" then Some 3
       else None;
     dlfunc := λ h,
       match h with
       | 1 => Some hook_a
       | 2 => Some hook_b
       | _ => None
       end;
     kernel := k |}.

(** The host after one [rc_plugin_load]. *)
Definition loaded : state :=
  match rc_plugin_load (plugindir kernel_ok) host with
  | Done s => s
  | _ => host
  end.

(** The two cells of the registry of [loaded]. *)
Definition cell_a : plugin_t :=
  {| name := "a.so"; handle := 1; hook := Some hook_a; next := Some 1 |}.
Definition cell_b : plugin_t :=
  {| name := "b.so"; handle := 2; hook := Some hook_b; next := None |}.

(** Kernels on which the first dispatch fails: no pipe, or no process. *)
Definition kernel_nopipe (n : nat) : syscalls :=
  match n with
  | 0 => {| sys_pipe := false;
            sys_getfd := sys_getfd (kernel_ok 0);
            sys_setfd := sys_setfd (kernel_ok 0);
            sys_fork := sys_fork (kernel_ok 0);
            sys_read := sys_read (kernel_ok 0);
            sys_wait := sys_wait (kernel_ok 0) |}
  | _ => kernel_ok n
  end.

Definition kernel_nofork (n : nat) : syscalls :=
  match n with
  | 0 => {| sys_pipe := true;
            sys_getfd := sys_getfd (kernel_ok 0);
            sys_setfd := sys_setfd (kernel_ok 0);
            sys_fork := ForkFailed;
            sys_read := sys_read (kernel_ok 0);
            sys_wait := sys_wait (kernel_ok 0) |}
  | _ => kernel_ok n
  end.

(** The host inside the subprocess of a plugin. *)
Definition in_child : state :=
  {| rc_in_plugin := true; plugins := plugins loaded; heap := heap loaded;
     dl_open := dl_open loaded; environ := environ loaded;
     sigmask := sigmask loaded; tick := tick loaded; log := log loaded |}.

(** The host after [a.so] was dispatched on the good kernel. *)
Definition after_a : state :=
  match run_through (plugindir kernel_ok) 0%Z "boot" [cell_a] loaded with
  | Next s => s
  | Exit _ => loaded
  end.

(** ** Further notions used by the properties *)

(** Dropping one reference for each handle of [hs], in order. *)
Definition release_all (hs d : list dl_handle) : list dl_handle :=
  foldl (λ d h, release h d) d hs.

(** Two states of the same process that differ at most in the registry:
    the flag, the environment, the signal mask and the log agree. *)
Definition same_process (s s' : state) : Prop :=
  rc_in_plugin s' = rc_in_plugin s ∧ environ s' = environ s ∧
  sigmask s' = sigmask s ∧ tick s' = tick s ∧ log s' = log s.

(** Variants of the sample directory: one that cannot be opened, one
    without any plugin, and one in which the hidden names would open. *)
Definition nodir : world :=
  {| BUFSIZ := 64; opendir := None;
     dlopen := dlopen (plugindir kernel_ok);
     dlfunc := dlfunc (plugindir kernel_ok); kernel := kernel_ok |}.

Definition emptydir : world :=
  {| BUFSIZ := 64; opendir := Some ["."; ".."; "nohook.so"; "README"];
     dlopen := dlopen (plugindir kernel_ok);
     dlfunc := dlfunc (plugindir kernel_ok); kernel := kernel_ok |}.

Definition dotdir : world :=
  {| BUFSIZ := 64; opendir := opendir (plugindir kernel_ok);
     dlopen := λ d_name,
       if hidden d_name then Some 1 else dlopen (plugindir kernel_ok) d_name;
     dlfunc := dlfunc (plugindir kernel_ok); kernel := kernel_ok |}.

(** [m'] is [m] in which some ['='] bytes were overwritten with NUL. *)
Definition patched (m m' : list ascii) : Prop :=
  length m' = length m ∧
  ∀ i, m' !! i = m !! i ∨ (m !! i = Some EQUALS ∧ m' !! i = Some NUL).

(** What a record asks for: an empty value means "remove". *)
Definition sent (v : string) : option string :=
  match v with
  | EmptyString => None
  | _ => Some v
  end.

(** Following a log with the subprocess that is alive, if any: a fork
    is allowed when none is alive, the next event must then be the
    reaping of that child, and errors are logged only while none is
    alive.  [None] when the log breaks this discipline, otherwise the
    child that is alive at the end. *)
Fixpoint track (alive : option Z) (t : list event) : option (option Z) :=
  match t with
  | [] => Some alive
  | Eerror _ :: t' =>
      match alive with
      | None => track None t'
      | Some _ => None
      end
  | Forked _ pid _ :: t' =>
      match alive with
      | None => track (Some pid) t'
      | Some _ => None
      end
  | Reaped pid _ :: t' =>
      match alive with
      | Some pid' => if (pid =? pid')%Z then track None t' else None
      | None => None
      end
  end.

(** The sample host after unloading, and after a run on the good kernel. *)
Definition unloaded : state :=
  match rc_plugin_unload loaded with
  | Done s => s
  | _ => loaded
  end.

Definition ran : state :=
  match rc_plugin_run (plugindir kernel_ok) 0%Z "boot" loaded with
  | Done s => s
  | _ => loaded
  end.

(** What the [fcntl] loop logs: one error for each of the two ends of
    the pipe whose close-on-exec flag could not be set. *)
Definition fcntl_errors (o : syscalls) : list event :=
  (if cloexec_failed o 0 then [Eerror "fcntl"] else [])
  ++ (if cloexec_failed o 1 then [Eerror "fcntl"] else []).


(** A kernel on which [fcntl] fails during the first dispatch. *)
Definition kernel_nofcntl (n : nat) : syscalls :=
  match n with
  | 0 => {| sys_pipe := true;
            sys_getfd := λ _, (-1)%Z;
            sys_setfd := sys_setfd (kernel_ok 0);
            sys_fork := sys_fork (kernel_ok 0);
            sys_read := sys_read (kernel_ok 0);
            sys_wait := sys_wait (kernel_ok 0) |}
  | _ => kernel_ok n
  end.



(** The signals that [sigprocmask] can block after [sigfillset]. *)
Definition blockable (n : nat) : Prop :=
  1 ≤ n ≤ 64 ∧ n ≠ SIGKILL ∧ n ≠ SIGSTOP ∧ n ≠ 32 ∧ n ≠ 33.
(** Reassociate appended lists to the right. *)
Ltac norm_app := repeat first [rewrite <- app_assoc | progress simpl].

Section Decoder.

Implicit Types (m pre rest t : list ascii) (e : env) (k v : string).

Lemma length_bytes k : length (bytes k) = String.length k.
Proof. induction k; simpl; congruence. Qed.

Lemma decode_loop_fuel fuel nr m p e :
  0 < fuel → nr < p + fuel → decode_loop fuel nr m p e ≠ OutOfFuel.
Proof.
  revert m p e. induction fuel as [|fuel IH]; intros m p e Hpos Hlt; [lia|].
  simpl. destruct (m !! p) as [c|]; [|done].
  destruct (Ascii.eqb c NUL); [done|].
  destruct (p <? nr) eqn:Hp; [|done]. simpl.
  apply Nat.ltb_lt in Hp.
  unfold strsep. destruct (scan_eq (drop p m)) as [n|n|]; [| |done].
  - destruct (cstring _ p); [|done].
    destruct (_ !! (p + n + 1)) as [c'|]; [|done].
    destruct (Ascii.eqb c' NUL).
    + apply IH; lia.
    + destruct (cstring _ (p + n + 1)); [|done]. apply IH; lia.
  - destruct (cstring m p); done.
Qed.

Lemma scan_eq_key k t :
  lacks EQUALS k = true → lacks NUL k = true →
  scan_eq (bytes k ++ EQUALS :: t) = Delim (String.length k).
Proof.
  unfold lacks. induction k as [|c k IH]; simpl; [done|].
  intros [Hc Hk]%andb_prop [Hc' Hk']%andb_prop.
  apply negb_true_iff in Hc, Hc'. rewrite Hc, Hc'. by rewrite IH.
Qed.

Lemma scan_eq_unterminated k t :
  lacks EQUALS k = true → lacks NUL k = true →
  scan_eq (bytes k ++ NUL :: t) = Term (String.length k).
Proof.
  unfold lacks. induction k as [|c k IH]; simpl; [done|].
  intros [Hc Hk]%andb_prop [Hc' Hk']%andb_prop.
  apply negb_true_iff in Hc, Hc'. rewrite Hc, Hc'. by rewrite IH.
Qed.

Lemma cstr_bytes v t :
  lacks NUL v = true → cstr (bytes v ++ NUL :: t) = Some v.
Proof.
  unfold lacks. induction v as [|c v IH]; simpl; [done|].
  intros [Hc Hv]%andb_prop. apply negb_true_iff in Hc.
  rewrite Hc, IH; done.
Qed.

(** The first byte of a NUL-free string followed by a non-NUL byte. *)
Lemma head_bytes k c t :
  lacks NUL k = true → c ≠ NUL →
  ∃ c0, head (bytes k ++ c :: t) = Some c0 ∧ Ascii.eqb c0 NUL = false.
Proof.
  unfold lacks. destruct k as [|c0 k]; simpl.
  - intros _ Hc. exists c. split; [done|]. by apply Ascii.eqb_neq.
  - intros [Hc0 _]%andb_prop _. exists c0. split; [done|].
    by apply negb_true_iff in Hc0.
Qed.

Lemma lookup_after pre t : (pre ++ t) !! length pre = head t.
Proof.
  rewrite lookup_app_r by lia. rewrite Nat.sub_diag. by destruct t.
Qed.

Lemma length_record r :
  length (record_bytes r) = String.length r.1 + String.length r.2 + 2.
Proof.
  unfold record_bytes. rewrite length_app. simpl. rewrite length_app.
  rewrite !length_bytes. simpl. lia.
Qed.

(** One turn of the loop on a well-formed record: the ['='] becomes a
    NUL, the rule of the specification is applied and [p] lands on the
    byte after the record. *)
Lemma decode_loop_record fuel nr pre r t e :
  well_formed r →
  length pre + length (record_bytes r) ≤ nr →
  decode_loop (S fuel) nr (pre ++ record_bytes r ++ t) (length pre) e =
  decode_loop fuel nr
    ((pre ++ bytes r.1 ++ NUL :: bytes r.2 ++ [NUL]) ++ t)
    (length pre + length (record_bytes r)) (apply_record e r).
Proof.
  destruct r as [k v]. intros (Hk1 & Hk2 & Hv) Hnr.
  rewrite length_record in *. simpl in *.
  assert (pre ++ record_bytes (k, v) ++ t
          = pre ++ bytes k ++ EQUALS :: bytes v ++ NUL :: t) as ->.
  { unfold record_bytes. by norm_app. }
  assert ((pre ++ bytes k ++ NUL :: bytes v ++ [NUL]) ++ t
          = pre ++ bytes k ++ NUL :: bytes v ++ NUL :: t) as ->.
  { by norm_app. }
  rewrite lookup_after.
  destruct (head_bytes k EQUALS (bytes v ++ NUL :: t) Hk2) as (c0 & -> & ->);
    [done|].
  assert ((length pre <? nr) = true) as -> by (apply Nat.ltb_lt; lia). simpl.
  unfold strsep. rewrite drop_app_length.
  rewrite scan_eq_key by done.
  assert (<[length pre + String.length k := NUL]>
            (pre ++ bytes k ++ EQUALS :: bytes v ++ NUL :: t)
          = pre ++ bytes k ++ NUL :: bytes v ++ NUL :: t) as ->.
  { rewrite insert_app_r. f_equal.
    rewrite <- length_bytes, <- (Nat.add_0_r (length (bytes k))).
    by rewrite insert_app_r. }
  unfold cstring at 1. rewrite drop_app_length, cstr_bytes by done.
  assert (pre ++ bytes k ++ NUL :: bytes v ++ NUL :: t
          = (pre ++ bytes k ++ [NUL]) ++ bytes v ++ NUL :: t) as Hm.
  { by norm_app. }
  assert (length pre + String.length k + 1 = length (pre ++ bytes k ++ [NUL]))
    as Hq.
  { rewrite !length_app, length_bytes. simpl. lia. }
  rewrite Hm, Hq. rewrite lookup_after.
  unfold apply_record; simpl fst; simpl snd.
  destruct v as [|c v].
  - simpl. f_equal. rewrite <- Hq. lia.
  - simpl in Hv. apply andb_prop in Hv as [Hc Hv].
    apply negb_true_iff in Hc. simpl. rewrite Hc.
    unfold cstring. rewrite drop_app_length.
    change (c :: bytes v ++ NUL :: t) with (bytes (String c v) ++ NUL :: t).
    rewrite cstr_bytes by (unfold lacks; simpl; rewrite Hc; exact Hv).
    f_equal. rewrite <- Hq. simpl. lia.
Qed.

Lemma wire_cons r rs : wire (r :: rs) = record_bytes r ++ wire rs.
Proof. done. Qed.

Lemma length_wire_ge rs : length rs ≤ length (wire rs).
Proof.
  induction rs as [|r rs IH]; [done|].
  rewrite wire_cons, length_app, length_record. simpl. lia.
Qed.

(** The loop on a run of well-formed records that lies inside the
    chunk: one turn per record, and the rule of the specification
    applied to each in order. *)
Lemma decode_loop_prefix rs fuel nr pre t e :
  Forall well_formed rs →
  length pre + length (wire rs) ≤ nr →
  ∃ pre', length pre' = length pre + length (wire rs) ∧
    decode_loop (length rs + fuel) nr (pre ++ wire rs ++ t) (length pre) e =
    decode_loop fuel nr (pre' ++ t) (length pre') (foldl apply_record e rs).
Proof.
  intros Hwf. revert pre e.
  induction Hwf as [|r rs Hr _ IH]; intros pre e Hnr.
  - exists pre. split; [simpl; lia|done].
  - rewrite wire_cons, length_app in Hnr.
    set (pre2 := pre ++ bytes r.1 ++ NUL :: bytes r.2 ++ [NUL]).
    assert (length pre2 = length pre + length (record_bytes r)) as Hlen.
    { unfold pre2, record_bytes. rewrite !length_app. simpl.
      rewrite !length_app. done. }
    destruct (IH pre2 (apply_record e r)) as (pre' & Hpre' & Heq); [lia|].
    exists pre'. split.
    { rewrite Hpre', Hlen, wire_cons, length_app. lia. }
    rewrite wire_cons, <- app_assoc.
    change (length (r :: rs) + fuel) with (S (length rs + fuel)).
    rewrite decode_loop_record by (done || lia).
    fold pre2. rewrite <- Hlen. exact Heq.
Qed.

(** A chunk made of whole records, in a buffer that is longer than the
    chunk: the loop returns, with every record applied. *)
Lemma decode_chunk_records rs rest e :
  Forall well_formed rs → rest ≠ [] →
  ∃ m', length m' = length (wire rs ++ rest) ∧
    decode_chunk (length (wire rs)) (wire rs ++ rest) e =
    Done (m', foldl apply_record e rs).
Proof.
  intros Hwf Hrest. unfold decode_chunk.
  pose proof (length_wire_ge rs) as Hge.
  destruct (decode_loop_prefix rs (S (length (wire rs)) - length rs)
              (length (wire rs)) [] rest e Hwf) as (pre' & Hlen & Heq);
    [simpl; lia|].
  simpl in Hlen, Heq.
  replace (length rs + (S (length (wire rs)) - length rs))
    with (S (length (wire rs))) in Heq by lia.
  rewrite Heq. exists (pre' ++ rest). split.
  { rewrite !length_app. lia. }
  destruct (S (length (wire rs)) - length rs) as [|fuel] eqn:Hf; [lia|].
  simpl. rewrite lookup_after.
  destruct rest as [|c rest]; [done|]. simpl.
  destruct (Ascii.eqb c NUL); [done|].
  assert ((length pre' <? length (wire rs)) = false) as ->; [|done].
  apply Nat.ltb_ge. lia.
Qed.

End Decoder.

(** ** EnvironmentChannel *)

(** C3, amended.  When every chunk that [read] returns is made of whole
    well-formed records [KEY=VALUE\0] (and leaves at least one byte of the
    buffer unused), the read loop returns and has applied, for each
    record in order, the rule of the specification: split at the first
    ['='], unset KEY, then set KEY to VALUE if and only if VALUE is not
    empty. *)
Theorem read_loop_records (bufsiz : nat) (rss : list (list (string * string)))
    (m : list ascii) (e : env) :
  length m = bufsiz →
  Forall (whole_records bufsiz) rss →
  ∃ m', read_loop bufsiz (map wire rss) m e
        = Done (m', foldl apply_record e (concat rss)).
Proof.
  intros Hm Hrss. revert m e Hm.
  induction Hrss as [|rs rss (Hne & Hwf & Hlen) _ IH]; intros m e Hm.
  - by exists m.
  - simpl. rewrite take_ge by lia.
    destruct (decode_chunk_records rs (drop (length (wire rs)) m) e Hwf)
      as (m1 & Hlen1 & Hdec).
    { intros Hnil. apply (f_equal length) in Hnil.
      rewrite length_drop in Hnil. simpl in Hnil. lia. }
    unfold sys_read_into. rewrite Hdec.
    rewrite length_app, length_drop in Hlen1.
    destruct (IH m1 (foldl apply_record e rs)) as (m' & Hm'); [lia|].
    exists m'. rewrite foldl_app, <- Hm'.
    destruct (wire rs) as [|c l] eqn:Hw; [|done].
    destruct rs as [|r rs]; [done|].
    rewrite wire_cons in Hw. apply (f_equal length) in Hw.
    rewrite length_app, length_record in Hw. simpl in Hw. lia.
Qed.

(** C4.  A chunk that starts with a NUL-terminated string without ['=']:
    [strsep] leaves [p] null, the name is unset, and the test of [*p]
    that follows dereferences the null pointer. *)
Theorem decode_chunk_null_deref (nr : nat) (k : string) (t : list ascii)
    (e : env) :
  k ≠ EmptyString → lacks EQUALS k = true → lacks NUL k = true → 0 < nr →
  decode_chunk nr (bytes k ++ NUL :: t) e
  = Fault NullDeref (bytes k ++ NUL :: t, unsetenv k e).
Proof.
  intros Hk Heq Hnul Hnr. unfold decode_chunk.
  cbn [decode_loop].
  destruct k as [|c k]; [done|].
  pose proof Hnul as Hc. unfold lacks in Hc. simpl in Hc.
  apply andb_prop in Hc as [Hc _]. apply negb_true_iff in Hc.
  change ((bytes (String c k) ++ NUL :: t) !! 0) with (Some c).
  cbv beta iota. rewrite Hc.
  assert ((0 <? nr) = true) as -> by (by apply Nat.ltb_lt).
  cbn [negb]. unfold strsep. rewrite drop_0.
  rewrite scan_eq_unterminated by done.
  unfold cstring. rewrite drop_0, cstr_bytes by done. done.
Qed.

(** ** ProcessWait *)

Section Waitpid.

Implicit Types (pid retval status : Z) (answers pre post : list (Z * Z)).

Lemma waitpid_loop_other pid answers retval :
  Forall (λ a, (0 < a.1)%Z) answers → pid ∉ answers.*1 →
  waitpid_loop pid answers retval = retval.
Proof.
  intros Hpos. revert retval.
  induction Hpos as [|[p st] answers Hp _ IH]; intros retval Hnot; [done|].
  simpl in *. apply not_elem_of_cons in Hnot as [Hne Hnot].
  assert ((0 <? p)%Z = true) as -> by lia.
  assert ((p =? pid)%Z = false) as -> by lia.
  by apply IH.
Qed.

Lemma waitpid_loop_match pid pre status post retval :
  Forall (λ a, (0 < a.1)%Z) pre → (0 < pid)%Z →
  waitpid_loop pid (pre ++ (pid, status) :: post) retval =
  waitpid_loop pid post (reaped_status status).
Proof.
  intros Hpos Hpid. revert retval.
  induction Hpos as [|[p st] pre Hp _ IH]; intros retval.
  - simpl. assert ((0 <? pid)%Z = true) as -> by lia.
    by rewrite Z.eqb_refl.
  - simpl in *. assert ((0 <? p)%Z = true) as -> by lia. apply IH.
Qed.

Lemma WIFEXITED_exit ret : WIFEXITED (W_EXITCODE ret 0) = true.
Proof.
  unfold WIFEXITED, W_EXITCODE. apply Z.eqb_eq.
  change (Z.land 0 127) with 0%Z. rewrite Z.lor_0_r.
  change 127%Z with (Z.ones 7). rewrite Z.land_ones by lia.
  rewrite Z.shiftl_mul_pow2 by lia.
  change (2 ^ 8)%Z with (2 * 2 ^ 7)%Z.
  rewrite Z.mul_assoc. apply Z_mod_mult.
Qed.

Lemma WEXITSTATUS_exit ret :
  WEXITSTATUS (W_EXITCODE ret 0) = (ret mod 256)%Z.
Proof.
  unfold WEXITSTATUS, W_EXITCODE.
  change (Z.land 0 127) with 0%Z. rewrite Z.lor_0_r.
  change 65280%Z with (Z.shiftl 255 8).
  rewrite <- Z.shiftl_land, Z.shiftr_shiftl_l by lia.
  rewrite Z.sub_diag, Z.shiftl_0_r, <- Z.land_assoc, Z.land_diag.
  change 255%Z with (Z.ones 8). by rewrite Z.land_ones by lia.
Qed.

End Waitpid.

(** C7.  [answers] are the children the successive [waitpid] calls reap
    before the call that fails.  [rc_waitpid] skips the other pids; it
    returns -1 when [pid] is not among them, and otherwise the exit code
    of [pid] if it exited and [EXIT_FAILURE] if it did not. *)
Theorem rc_waitpid_result (pid : Z) (answers : list (Z * Z)) :
  (0 < pid)%Z →
  Forall (λ a, (0 < a.1)%Z) answers →
  (pid ∉ answers.*1 → rc_waitpid pid answers = (-1)%Z) ∧
  (∀ pre status post,
     answers = pre ++ (pid, status) :: post → pid ∉ post.*1 →
     rc_waitpid pid answers =
     if WIFEXITED status then WEXITSTATUS status else EXIT_FAILURE).
Proof.
  intros Hpid Hpos. split.
  - intros Hnot. by apply waitpid_loop_other.
  - intros pre status post -> Hnot. unfold rc_waitpid.
    apply Forall_app in Hpos as [Hpre Hpost].
    apply Forall_cons in Hpost as [_ Hpost].
    rewrite waitpid_loop_match by done.
    by apply waitpid_loop_other.
Qed.

(** ** Chains of cells in the heap *)

Section Chains.

Implicit Types (h : list (option plugin_t)) (p q : ptr) (a b : addr)
  (c : plugin_t) (l : list plugin_t).

Lemma lseg_app_heap h h' p q l : lseg h p q l → lseg (h ++ h') p q l.
Proof.
  revert p. induction l as [|c l IH]; intros p; simpl; [done|].
  intros (a & -> & Ha & Hl). exists a. split_and!; [done| |by apply IH].
  by apply lookup_app_l_Some.
Qed.

(** The last cell of a chain under construction is not one of the
    cells before it: those have a [next] that is not null. *)
Lemma lseg_insert_tail h p a c x l :
  lseg h p (Some a) l → h !! a = Some (Some c) → next c = None →
  lseg (<[a := x]> h) p (Some a) l.
Proof.
  intros Hl Ha Hnext. revert p Hl.
  induction l as [|c0 l IH]; intros p; simpl; [done|].
  intros (a0 & -> & Ha0 & Hl). exists a0.
  destruct (decide (a0 = a)) as [->|Hne].
  - assert (c0 = c) as -> by congruence. rewrite Hnext in Hl.
    destruct l; simpl in Hl; [done|]. by destruct Hl as (? & ? & _).
  - split_and!; [done| |by apply IH]. by rewrite list_lookup_insert_ne.
Qed.

Lemma lseg_snoc h p a c l :
  lseg h p (Some a) l → h !! a = Some (Some c) →
  lseg h p (next c) (l ++ [c]).
Proof.
  intros Hl Ha. revert p Hl.
  induction l as [|c0 l IH]; intros p; simpl.
  - intros ->. by exists a.
  - intros (a0 & -> & Ha0 & Hl). exists a0. split_and!; [done..|by apply IH].
Qed.

Lemma lseg_functional h p l1 l2 :
  lseg h p None l1 → lseg h p None l2 → l1 = l2.
Proof.
  revert p l2. induction l1 as [|c1 l1 IH]; intros p [|c2 l2]; simpl.
  - done.
  - intros -> (? & ? & _). done.
  - intros (? & ? & _) ->. done.
  - intros (a1 & -> & H1 & Hl1) (a2 & [= <-] & H2 & Hl2).
    assert (c2 = c1) as -> by congruence. f_equal. by eapply IH.
Qed.

Lemma length_path h p q l : lseg h p q l → length (path p l) = length l.
Proof.
  revert p. induction l as [|c l IH]; intros p; simpl; [done|].
  intros (a & -> & _ & Hl). simpl. by rewrite (IH _ Hl).
Qed.

Lemma path_bound h p q l a : lseg h p q l → a ∈ path p l → a < length h.
Proof.
  revert p. induction l as [|c l IH]; intros p; simpl.
  - intros _ Ha. destruct p; by apply elem_of_nil in Ha.
  - intros (a0 & -> & Ha0 & Hl) [->|Ha]%elem_of_cons.
    + by eapply lookup_lt_Some.
    + by eapply IH.
Qed.

(** From any cell of a chain the rest of the chain is a shorter chain. *)
Lemma path_suffix h p l a :
  lseg h p None l → a ∈ path p l →
  ∃ l2, lseg h (Some a) None l2 ∧ 0 < length l2 ≤ length l.
Proof.
  revert p. induction l as [|c l IH]; intros p; simpl.
  - intros _ Ha. destruct p; by apply elem_of_nil in Ha.
  - intros (a0 & -> & Ha0 & Hl) [->|Ha]%elem_of_cons.
    + exists (c :: l). split; [by exists a0|simpl; lia].
    + destruct (IH _ Hl Ha) as (l2 & Hl2 & Hlen).
      exists l2. split; [done|simpl; lia].
Qed.

Lemma NoDup_path h p l : lseg h p None l → NoDup (path p l).
Proof.
  revert p. induction l as [|c l IH]; intros p; simpl.
  - intros _. destruct p; constructor.
  - intros (a & -> & Ha & Hl). constructor; [|by apply IH].
    intros Hin. destruct (path_suffix _ _ _ _ Hl Hin) as (l2 & Hl2 & Hlen).
    assert (l2 = c :: l) as ->.
    { eapply lseg_functional; [done|]. by exists a. }
    simpl in Hlen. lia.
Qed.

(** Writing a cell that is not on the chain leaves the chain alone. *)
Lemma lseg_insert_off_path h p q l a x :
  lseg h p q l → a ∉ path p l → lseg (<[a := x]> h) p q l.
Proof.
  revert p. induction l as [|c l IH]; intros p; simpl; [done|].
  intros (a0 & -> & Ha0 & Hl) [Hne Hnot]%not_elem_of_cons.
  exists a0. split_and!; [done| |by apply IH].
  by rewrite list_lookup_insert_ne.
Qed.

(** A chain is no longer than the heap. *)
Lemma lseg_length h p l : lseg h p None l → length l ≤ length h.
Proof.
  intros Hl. rewrite <- (length_path _ _ _ _ Hl).
  replace (length h) with (length (seq 0 (length h)))
    by apply length_seq.
  apply submseteq_length, NoDup_submseteq; [by eapply NoDup_path|].
  intros a Ha. apply elem_of_seq. split; [lia|].
  simpl. by eapply path_bound.
Qed.

Lemma live_le h : live h ≤ length h.
Proof. induction h as [|[c|] h IH]; simpl; lia. Qed.

Lemma live_free h a c :
  h !! a = Some (Some c) → S (live (<[a := None]> h)) = live h.
Proof.
  revert a. induction h as [|o h IH]; intros [|a]; simpl; try done.
  - by intros [= ->].
  - intros Ha. destruct o; simpl; by rewrite <- (IH _ Ha).
Qed.

End Chains.

(** [rc_plugin_unload] never uses up its turns, whatever the heap. *)
Lemma unload_loop_fuel (fuel : nat) (plugin : ptr) (s : state) :
  live (heap s) < fuel → unload_loop fuel plugin s ≠ OutOfFuel.
Proof.
  revert plugin s. induction fuel as [|fuel IH]; intros [a|] s Hlt; simpl;
    try done; try lia.
  destruct (heap s !! a) as [[c|]|] eqn:Ha; [|done..].
  apply IH. simpl. apply live_free in Ha. lia.
Qed.

Lemma rc_plugin_unload_fuel (s : state) : rc_plugin_unload s ≠ OutOfFuel.
Proof.
  apply unload_loop_fuel. pose proof (live_le (heap s)). lia.
Qed.

(** Unloading a chain frees each of its cells and empties the registry;
    cells that were freed before stay freed. *)
Lemma unload_loop_chain (l : list plugin_t) (fuel : nat) (p : ptr) (s : state) :
  lseg (heap s) p None l → length l < fuel →
  ∃ s', unload_loop fuel p s = Done s' ∧ plugins s' = None ∧
        (∀ a, a ∈ path p l → heap s' !! a = Some None) ∧
        (∀ a, heap s !! a = Some None → heap s' !! a = Some None) ∧
        rc_in_plugin s' = rc_in_plugin s.
Proof.
  revert fuel p s. induction l as [|c l IH]; intros fuel p s Hl Hfuel.
  - simpl in Hl. subst p. exists (set_plugins None s).
    split_and!; try done; [by destruct fuel|].
    simpl. by intros a ?%elem_of_nil.
  - pose proof (NoDup_path _ _ _ Hl) as Hnd.
    destruct Hl as (a & -> & Ha & Hl). simpl in Hnd.
    apply NoDup_cons in Hnd as [Hnot _].
    destruct fuel as [|fuel]; [simpl in Hfuel; lia|]. simpl. rewrite Ha.
    destruct (IH fuel (next c) (free a (dlclose (handle c) s)))
      as (s' & -> & Hp & Hpath & Hkeep & Hin).
    { simpl. by apply lseg_insert_off_path. }
    { simpl in Hfuel. lia. }
    exists s'. split_and!; try done.
    + intros a' [->|Ha']%elem_of_cons; [|by apply Hpath].
      apply Hkeep. simpl. apply list_lookup_insert_eq.
      by eapply lookup_lt_Some.
    + intros a' Ha'. apply Hkeep. simpl.
      rewrite list_lookup_insert_ne; [done|].
      congruence.
Qed.

(** ** PluginRegistry *)

Section Load.

Variable w : world.

Lemma insert_snoc {A} (h : list A) (x y : A) :
  <[length h := x]> (h ++ [y]) = h ++ [x].
Proof.
  rewrite <- (Nat.add_0_r (length h)). by rewrite insert_app_r.
Qed.

Lemma tail_inv_registry s plugin l : tail_inv s plugin l → registry s l.
Proof.
  unfold tail_inv, registry. destruct plugin as [a|].
  - intros (l0 & c & -> & Hl0 & Ha & Hnext). rewrite <- Hnext.
    by eapply lseg_snoc.
  - by intros [-> ->].
Qed.

(** Linking a new record after the chain, whatever the loop does next
    ([K] is the rest of the loop). *)
Lemma tail_inv_append s plugin l d_name h fptr :
  tail_inv s plugin l →
  ∃ s3 l3,
    (∀ K : ptr → state → outcome state,
       match plugin with
       | Some a =>
           match heap (xmalloc s).2 !! a with
           | Some (Some c) =>
               K (Some (length (heap s)))
                 (store (length (heap s))
                    {| name := d_name; handle := h;
                       hook := Some fptr; next := None |}
                    (store a (set_next (Some (length (heap s))) c)
                       (xmalloc s).2))
           | _ => Fault UseAfterFree (xmalloc s).2
           end
       | None =>
           K (Some (length (heap s)))
             (store (length (heap s))
                {| name := d_name; handle := h;
                   hook := Some fptr; next := None |}
                (set_plugins (Some (length (heap s))) (xmalloc s).2))
       end = K (Some (length (heap s))) s3) ∧
    tail_inv s3 (Some (length (heap s))) l3 ∧
    entry_of <$> l3 = (entry_of <$> l) ++ [(d_name, h, Some fptr)] ∧
    dl_open s3 = dl_open s ∧ environ s3 = environ s ∧ log s3 = log s ∧
    rc_in_plugin s3 = rc_in_plugin s.
Proof.
  intros Hinv. simpl.
  set (cell := {| name := d_name; handle := h;
                  hook := Some fptr; next := None |}).
  destruct plugin as [a|]; simpl in Hinv.
  - destruct Hinv as (l0 & c & -> & Hl0 & Ha & Hnext).
    rewrite (lookup_app_l_Some _ _ _ _ Ha).
    pose proof (lookup_lt_Some _ _ _ Ha) as Hlt.
    eexists _, (l0 ++ [set_next (Some (length (heap s))) c] ++ [cell]).
    split; [done|]. split_and!; try done.
    + exists (l0 ++ [set_next (Some (length (heap s))) c]), cell.
      simpl. split_and!; [by rewrite <- app_assoc| | |done].
      * rewrite list_insert_insert_ne by lia. rewrite insert_snoc.
        change (Some (length (heap s)))
          with (next (set_next (Some (length (heap s))) c)).
        apply (lseg_snoc _ _ a).
        -- eapply lseg_insert_tail; [by apply lseg_app_heap| |done].
           by apply lookup_app_l_Some.
        -- apply list_lookup_insert_eq. rewrite length_app. simpl. lia.
      * apply list_lookup_insert_eq. rewrite length_insert, length_app.
        simpl. lia.
    + rewrite !fmap_app. simpl. by rewrite <- app_assoc.
  - destruct Hinv as [Hp ->].
    eexists _, [cell]. split; [done|]. split_and!; try done.
    exists [], cell. simpl. split_and!; try done.
    apply list_lookup_insert_eq. rewrite length_app. simpl. lia.
Qed.

(** The [readdir] loop, started with [plugin] at the end of the chain:
    it returns, and has linked one record per loadable entry, in scan
    order, after the records that were there. *)
Lemma load_loop_spec ents plugin s l :
  tail_inv s plugin l →
  ∃ s' l',
    load_loop w ents plugin s = Done s' ∧
    registry s' l' ∧
    entry_of <$> l' = (entry_of <$> l) ++ loadable w ents ∧
    dl_open s' = reverse ((loadable w ents).*1.*2) ++ dl_open s ∧
    environ s' = environ s ∧
    log s' = log s ++ load_errors w ents ∧
    rc_in_plugin s' = rc_in_plugin s.
Proof.
  revert plugin s l.
  induction ents as [|d_name rest IH]; intros plugin s l Hinv; simpl.
  - exists s, l. rewrite !app_nil_r.
    split_and!; try done. by eapply tail_inv_registry.
  - destruct (hidden d_name); [by apply IH|].
    destruct (dlopen w d_name) as [h|].
    + destruct (dlfunc w h) as [fptr|].
      * destruct (tail_inv_append (sys_dlopen h s) plugin l d_name h fptr)
          as (s3 & l3 & HK & Hinv3 & Hl3 & Hdl & Henv & Hlog & Hin);
          [by destruct plugin|].
        simpl in Hdl, Henv, Hlog, Hin.
        destruct (IH _ _ _ Hinv3)
          as (s' & l' & Hrun & Hreg & Hl' & Hdl' & Henv' & Hlog' & Hin').
        exists s', l'. split_and!; try done; try congruence.
        -- rewrite <- Hrun. exact (HK (load_loop w rest)).
        -- rewrite Hl', Hl3. by rewrite <- app_assoc.
        -- rewrite Hdl', Hdl. simpl. rewrite reverse_cons.
           by rewrite <- app_assoc.
      * destruct (IH plugin
                    (dlclose h (eerror (no_symbol d_name) (sys_dlopen h s))) l)
          as (s' & l' & -> & Hreg & Hl' & Hdl' & Henv' & Hlog' & Hin');
          [by destruct plugin|].
        exists s', l'. split_and!; try done.
        -- rewrite Hdl'. simpl. by rewrite Nat.eqb_refl.
        -- rewrite Hlog'. simpl. by rewrite <- app_assoc.
    + destruct (IH plugin (eerror "dlopen" s) l)
        as (s' & l' & -> & Hreg & Hl' & Hdl' & Henv' & Hlog' & Hin');
        [by destruct plugin|].
      exists s', l'. split_and!; try done.
      rewrite Hlog'. simpl. by rewrite <- app_assoc.
Qed.

(** Every entry that [loadable] keeps was opened and resolved. *)
Lemma loadable_elem ents n h f :
  (n, h, f) ∈ loadable w ents →
  dlopen w n = Some h ∧ ∃ fptr, f = Some fptr ∧ dlfunc w h = Some fptr.
Proof.
  induction ents as [|d_name rest IH]; simpl.
  - by intros ?%elem_of_nil.
  - destruct (hidden d_name); [done|].
    destruct (dlopen w d_name) as [h'|] eqn:Ho; [|done].
    destruct (dlfunc w h') as [fptr|] eqn:Hf; [|done].
    intros [[= -> -> ->]|Hin]%elem_of_cons; [|by apply IH]. eauto.
Qed.

Lemma loadable_app ents1 ents2 :
  loadable w (ents1 ++ ents2) = loadable w ents1 ++ loadable w ents2.
Proof.
  induction ents1 as [|d_name rest IH]; simpl; [done|].
  destruct (hidden d_name); [done|].
  destruct (dlopen w d_name) as [h|]; [|done].
  destruct (dlfunc w h); [|done]. by rewrite IH.
Qed.

Lemma load_errors_app ents1 ents2 :
  load_errors w (ents1 ++ ents2) = load_errors w ents1 ++ load_errors w ents2.
Proof.
  induction ents1 as [|d_name rest IH]; simpl; [done|].
  destruct (hidden d_name); [done|].
  destruct (dlopen w d_name) as [h|]; [|by rewrite IH].
  destruct (dlfunc w h); [done|]. by rewrite IH.
Qed.

(** [rc_plugin_load] on an empty registry. *)
Lemma rc_plugin_load_empty s ents :
  rc_in_plugin s = false → plugins s = None → opendir w = Some ents →
  ∃ s' l,
    rc_plugin_load w s = Done s' ∧
    registry s' l ∧
    entry_of <$> l = loadable w ents ∧
    dl_open s' = reverse ((loadable w ents).*1.*2) ++ dl_open s ∧
    environ s' = environ s ∧
    log s' = log s ++ load_errors w ents.
Proof.
  intros Hin Hp Hdir. unfold rc_plugin_load, rc_plugin_unload.
  rewrite Hin, Hp, Hdir. simpl.
  destruct (load_loop_spec ents None (set_plugins None s) [])
    as (s' & l & -> & Hreg & Hl & Hdl & Henv & Hlog & _); [done|].
  by exists s', l.
Qed.

(** The [readdir] loop started with [plugin] pointing to a freed cell:
    it stops at the first loadable entry, where the new record is linked
    through that cell; [plugins] has not been assigned. *)
Lemma load_loop_dangling ents a s :
  heap s !! a = Some None → loadable w ents ≠ [] →
  ∃ s', load_loop w ents (Some a) s = Fault UseAfterFree s' ∧
        plugins s' = plugins s.
Proof.
  revert s. induction ents as [|d_name rest IH]; intros s Ha; simpl; [done|].
  destruct (hidden d_name); [by apply IH|].
  destruct (dlopen w d_name) as [h|].
  - destruct (dlfunc w h) as [fptr|].
    + intros _. rewrite (lookup_app_l_Some _ _ _ _ Ha). by eexists.
    + intros Hne.
      destruct (IH (dlclose h (eerror (no_symbol d_name) (sys_dlopen h s))))
        as (s' & -> & Hp); [done..|]. by exists s'.
  - intros Hne. destruct (IH (eerror "dlopen" s)) as (s' & -> & Hp); [done..|].
    by exists s'.
Qed.

(** Every reload of a populated registry from a directory with at least
    one loadable plugin ends in that fault, with a null [plugins]. *)
Lemma rc_plugin_load_populated s l ents :
  rc_in_plugin s = false → registry s l → l ≠ [] →
  opendir w = Some ents → loadable w ents ≠ [] →
  ∃ s', rc_plugin_load w s = Fault UseAfterFree s' ∧ plugins s' = None.
Proof.
  intros Hin Hreg Hne Hdir Hload. unfold rc_plugin_load, rc_plugin_unload.
  rewrite Hin, Hdir.
  destruct (unload_loop_chain l (S (length (heap s))) (plugins s) s Hreg)
    as (s1 & -> & Hp1 & Hfreed & _).
  { apply lseg_length in Hreg. lia. }
  destruct l as [|c l]; [done|]. destruct Hreg as (a & Ha & _).
  rewrite Ha in *.
  destruct (load_loop_dangling ents a s1) as (s' & -> & Hp); [|done|].
  { apply Hfreed. simpl. apply elem_of_cons. by left. }
  exists s'. by rewrite Hp.
Qed.

(** An entry that opens but lacks the symbol, between other entries. *)
Lemma loadable_unresolved pre post d_name h :
  hidden d_name = false → dlopen w d_name = Some h → dlfunc w h = None →
  loadable w (pre ++ d_name :: post) = loadable w pre ++ loadable w post ∧
  load_errors w (pre ++ d_name :: post) =
    load_errors w pre ++ Eerror (no_symbol d_name) :: load_errors w post.
Proof.
  intros Hh Ho Hf. rewrite loadable_app, load_errors_app. simpl.
  by rewrite Hh, Ho, Hf.
Qed.

End Load.

(** C10.  On an empty registry, an entry whose library opens but has no
    hook symbol gets no record (no record bears its name or its handle),
    the reference taken on its library is dropped again (the references
    held afterwards are those of the records), the failure is logged, and
    the entries before and after it are loaded as if it were not there. *)
Theorem load_skips_unresolved (w : world) (s : state) (pre post : list string)
    (d_name : string) (h : dl_handle) :
  rc_in_plugin s = false → plugins s = None →
  opendir w = Some (pre ++ d_name :: post) →
  hidden d_name = false → dlopen w d_name = Some h → dlfunc w h = None →
  ∃ s' l,
    rc_plugin_load w s = Done s' ∧ registry s' l ∧
    entry_of <$> l = loadable w pre ++ loadable w post ∧
    (∀ c, c ∈ l → name c ≠ d_name ∧ handle c ≠ h) ∧
    dl_open s' = reverse (handle <$> l) ++ dl_open s ∧
    log s' = log s ++ load_errors w pre
               ++ Eerror (no_symbol d_name) :: load_errors w post.
Proof.
  intros Hin Hp Hdir Hh Ho Hf.
  destruct (rc_plugin_load_empty w s _ Hin Hp Hdir)
    as (s' & l & Hload & Hreg & Hl & Hdl & _ & Hlog).
  destruct (loadable_unresolved w pre post d_name h Hh Ho Hf) as [Hla Hle].
  rewrite Hla in Hl. rewrite Hle in Hlog.
  exists s', l. split_and!; try done.
  - intros c Hc.
    assert (entry_of c ∈ loadable w (pre ++ post)) as Hel.
    { rewrite loadable_app, <- Hl. by apply list_elem_of_fmap_2. }
    apply loadable_elem in Hel as (Hco & fptr & _ & Hcf).
    split; intros Heq; simpl in *; [rewrite Heq in Hco|rewrite Heq in Hcf];
      congruence.
  - rewrite Hdl, Hla, <- Hl. do 2 f_equal.
    rewrite <- !list_fmap_compose. done.
Qed.

(** C9.  Inside a plugin both entry points return at once and leave the
    whole state as it was. *)
Theorem in_plugin_noop (w : world) (hk : rc_hook_t) (value : string)
    (s : state) :
  rc_in_plugin s = true →
  rc_plugin_load w s = Done s ∧ rc_plugin_run w hk value s = Done s.
Proof.
  intros Hin. unfold rc_plugin_load, rc_plugin_run. by rewrite Hin.
Qed.

(** C1 (where the code departs from the claim).  The first load of the
    sample directory builds the registry [a.so; b.so].  The second load,
    with the directory unchanged, frees the chain while the local
    [plugin] still points to its first cell; the first loadable entry is
    then linked through that freed cell, and [plugins] is still null. *)
Theorem load_twice_use_after_free :
  rc_plugin_load (plugindir kernel_ok) host = Done loaded ∧
  (∃ l, registry loaded l ∧ name <$> l = ["a.so"; "b.so"]) ∧
  ∃ s2, rc_plugin_load (plugindir kernel_ok) loaded = Fault UseAfterFree s2 ∧
        plugins s2 = None.
Proof.
  split; [by vm_compute|]. split.
  - eexists [_; _]. split.
    + exists 0. split_and!; [done|vm_compute; reflexivity|].
      exists 1. split_and!; [done|vm_compute; reflexivity|done].
    + done.
  - eexists. split; [vm_compute; reflexivity|done].
Qed.

(** ** HookDispatcher *)

Section Run.

Variables (w : world) (hk : rc_hook_t) (value : string).

Lemma read_loop_fuel bufsiz chunks m e :
  read_loop bufsiz chunks m e ≠ OutOfFuel.
Proof.
  revert m e. induction chunks as [|chunk rest IH]; intros m e; simpl; [done|].
  destruct (take bufsiz chunk) as [|c got] eqn:Hgot; [done|].
  destruct (decode_chunk _ _ e) as [[m' e']| |] eqn:Hdec; [apply IH|done|].
  exfalso. revert Hdec. apply decode_loop_fuel; lia.
Qed.

Lemma forks_app t1 t2 : forks (t1 ++ t2) = forks t1 ++ forks t2.
Proof. apply omap_app. Qed.

(** The [fcntl] loop only writes to the log. *)
Lemma set_cloexec_log o s :
  ∃ t, set_cloexec o s = add_logs t s ∧
       Forall (λ ev, ev = Eerror "fcntl") t.
Proof.
  unfold set_cloexec, eerror, add_logs. simpl.
  destruct (cloexec_failed o 0), (cloexec_failed o 1); simpl.
  - exists [Eerror "fcntl"; Eerror "fcntl"]. split; [|by repeat constructor].
    by rewrite <- app_assoc.
  - exists [Eerror "fcntl"]. split; [done|by repeat constructor].
  - exists [Eerror "fcntl"]. split; [done|by repeat constructor].
  - exists []. split; [|done]. rewrite app_nil_r. by destruct s.
Qed.

Lemma forks_fcntl t : Forall (λ ev, ev = Eerror "fcntl") t → forks t = [].
Proof. induction 1 as [|ev t -> _ IH]; [done|]. exact IH. Qed.

(** What a turn of the loop leaves alone. *)
Lemma run_body_frame c s s' :
  flow_state (run_body w hk value c s) = Some s' →
  heap s' = heap s ∧ plugins s' = plugins s ∧
  rc_in_plugin s' = rc_in_plugin s ∧ dl_open s' = dl_open s.
Proof.
  unfold run_body. destruct (hook c) as [f|]; [|by intros [= <-]].
  destruct (set_cloexec_log (kernel w (tick s)) (set_tick (S (tick s)) s))
    as (t & Hc & _).
  destruct (sys_pipe _); simpl; [|by intros [= <-]].
  rewrite Hc. simpl.
  destruct (sys_fork _) as [|pid]; simpl; [by intros [= <-]|].
  destruct (read_loop _ _ _ _) as [[m' e']|fl [m' e']|]; simpl;
    [by intros [= <-]..|done].
Qed.

(** The loop on the heap follows the chain. *)
Lemma run_loop_chain l fuel p s :
  lseg (heap s) p None l → length l < fuel →
  run_loop w hk value fuel p s = finish (run_through w hk value l s).
Proof.
  revert fuel p s. induction l as [|c l IH]; intros fuel p s; simpl.
  - intros -> _. by destruct fuel.
  - intros (a & -> & Ha & Hl) Hfuel.
    destruct fuel as [|fuel]; [lia|]. simpl. rewrite Ha.
    destruct (run_body w hk value c s) as [s'|r] eqn:Hbody; [|done].
    apply IH; [|lia].
    destruct (run_body_frame c s s') as (-> & _); [by rewrite Hbody|done].
Qed.

Lemma rc_plugin_run_registry l s :
  rc_in_plugin s = false → registry s l →
  rc_plugin_run w hk value s = finish (run_through w hk value l s).
Proof.
  intros Hin Hreg. unfold rc_plugin_run. rewrite Hin.
  apply run_loop_chain; [done|].
  apply lseg_length in Hreg. lia.
Qed.

Lemma run_through_app l1 l2 s :
  run_through w hk value (l1 ++ l2) s =
  match run_through w hk value l1 s with
  | Next s' => run_through w hk value l2 s'
  | Exit r => Exit r
  end.
Proof.
  revert s. induction l1 as [|c l1 IH]; intros s; simpl; [done|].
  destruct (run_body w hk value c s); [apply IH|done].
Qed.

(** Reaching the cell [c] after the cells [pre] were dispatched. *)
Lemma rc_plugin_run_at pre c post s s1 :
  rc_in_plugin s = false → registry s (pre ++ c :: post) →
  run_through w hk value pre s = Next s1 →
  rc_plugin_run w hk value s =
  finish (match run_body w hk value c s1 with
          | Next s2 => run_through w hk value post s2
          | Exit r => Exit r
          end).
Proof.
  intros Hin Hreg Hpre. rewrite (rc_plugin_run_registry _ _ Hin Hreg).
  rewrite run_through_app, Hpre. done.
Qed.

(** A turn in which the pipe cannot be created. *)
Lemma run_body_pipe_failed c s f :
  hook c = Some f → sys_pipe (kernel w (tick s)) = false →
  run_body w hk value c s =
  Exit (Done (eerror "pipe" (set_tick (S (tick s)) s))).
Proof. intros Hf Hp. unfold run_body. by rewrite Hf, Hp. Qed.

(** A turn in which [fork] fails. *)
Lemma run_body_fork_failed c s f :
  hook c = Some f → sys_pipe (kernel w (tick s)) = true →
  sys_fork (kernel w (tick s)) = ForkFailed →
  ∃ t, Forall (λ ev, ev = Eerror "fcntl") t ∧
    run_body w hk value c s =
    Exit (Done (eerror "fork"
                  (set_sigmask sigfull (add_logs t (set_tick (S (tick s)) s))))).
Proof.
  intros Hf Hp Hfork. unfold run_body. rewrite Hf, Hp, Hfork. simpl.
  destruct (set_cloexec_log (kernel w (tick s)) (set_tick (S (tick s)) s))
    as (t & -> & Ht).
  by exists t.
Qed.

(** A turn in which the child is forked and the parent decodes its
    output to the end. *)
Lemma run_body_forked c s f pid m e1 :
  hook c = Some f → sys_pipe (kernel w (tick s)) = true →
  sys_fork (kernel w (tick s)) = ForkParent pid →
  read_loop (BUFSIZ w)
    (sys_read (kernel w (tick s)) (output (f hk value (environ s))))
    (repeat NUL (BUFSIZ w)) (environ s) = Done (m, e1) →
  ∃ t s2, Forall (λ ev, ev = Eerror "fcntl") t ∧
    run_body w hk value c s = Next s2 ∧
    environ s2 = e1 ∧ tick s2 = S (tick s) ∧ sigmask s2 = sigmask s ∧
    log s2 = log s ++ t ++
      [Forked (name c) pid (environ s);
       Reaped pid
         (rc_waitpid pid
            (sys_wait (kernel w (tick s))
               match f hk value (environ s) with
               | Returns _ retval => W_EXITCODE retval 0
               | Killed _ sig => W_EXITCODE 0 sig
               end))].
Proof.
  intros Hf Hp Hfork Hread. unfold run_body. rewrite Hf, Hp, Hfork. simpl.
  destruct (set_cloexec_log (kernel w (tick s)) (set_tick (S (tick s)) s))
    as (t & -> & Ht).
  simpl. rewrite Hread. eexists t, _. split_and!; try done.
  simpl. by rewrite <- !app_assoc.
Qed.

(** Every turn ends, and only adds to the log. *)
Lemma run_body_log c s :
  ∃ s' t, flow_state (run_body w hk value c s) = Some s' ∧
          log s' = log s ++ t ∧
          (forks t = [] ∨ (is_Some (hook c) ∧ forks t = [(name c, environ s)])) ∧
          (∀ s2, run_body w hk value c s = Next s2 →
                 forks t = [] → hook c = None).
Proof.
  unfold run_body. destruct (hook c) as [f|].
  2:{ exists s, []. rewrite app_nil_r. split_and!; auto. }
  destruct (set_cloexec_log (kernel w (tick s)) (set_tick (S (tick s)) s))
    as (t & Hc & Ht).
  pose proof (forks_fcntl _ Ht) as Hft.
  destruct (sys_pipe _).
  2:{ eexists _, [_]. simpl. split_and!; [done..|by left|done]. }
  simpl. rewrite Hc. simpl.
  destruct (sys_fork _) as [|pid]; simpl.
  { eexists _, (t ++ [_]). simpl. split_and!; [done| |left|done].
    - simpl. by rewrite <- app_assoc.
    - by rewrite forks_app, Hft. }
  destruct (read_loop _ _ _ _) as [[m' e']|fl [m' e']|] eqn:Hread; simpl.
  - eexists _, (t ++ [_; _]). simpl. split_and!; [done| |right|].
    + simpl. by rewrite <- !app_assoc.
    + split; [done|]. by rewrite forks_app, Hft.
    + intros s2 _ Hnil. by rewrite forks_app, Hft in Hnil.
  - eexists _, (t ++ [_]). simpl. split_and!; [done| |right|done].
    + simpl. by rewrite <- !app_assoc.
    + split; [done|]. by rewrite forks_app, Hft.
  - by apply read_loop_fuel in Hread.
Qed.

(** The whole loop ends, and the subprocesses it forks are those of a
    prefix of the cells that have a hook, in chain order. *)
Lemma run_through_forks l s :
  ∃ s' k, flow_state (run_through w hk value l s) = Some s' ∧
          (forks (log s')).*1 = (forks (log s)).*1 ++ take k (hooked l).
Proof.
  revert s. induction l as [|c l IH]; intros s; simpl.
  - exists s, 0. by rewrite app_nil_r.
  - destruct (run_body_log c s) as (s1 & t & Hs1 & Hlog & Hforks & Hnext).
    destruct (run_body w hk value c s) as [s2|r] eqn:Hbody.
    + injection Hs1 as ->.
      destruct (IH s1) as (s' & k & Hs' & Hk).
      unfold hooked. destruct Hforks as [Hf|[Hh Hf]].
      * exists s', k. split; [done|].
        rewrite Hk, Hlog, forks_app, Hf, app_nil_r.
        rewrite filter_cons_False; [done|].
        rewrite (Hnext s1 eq_refl Hf). by intros [? ?].
      * exists s', (S k). split; [done|].
        rewrite Hk, Hlog, forks_app, Hf.
        rewrite filter_cons_True by done. simpl.
        rewrite fmap_app. simpl. by rewrite <- app_assoc.
    + exists s1. unfold hooked. destruct Hforks as [Hf|[Hh Hf]].
      * exists 0. split; [done|].
        by rewrite Hlog, forks_app, Hf, take_0, !app_nil_r.
      * exists 1. split; [done|]. rewrite Hlog, forks_app, Hf.
        rewrite filter_cons_True by done. simpl.
        rewrite fmap_app. simpl. by rewrite take_0.
Qed.

Lemma run_through_log l s :
  ∃ s' t, flow_state (run_through w hk value l s) = Some s' ∧
          log s' = log s ++ t.
Proof.
  revert s. induction l as [|c l IH]; intros s; simpl.
  - exists s, []. by rewrite app_nil_r.
  - destruct (run_body_log c s) as (s1 & t & Hs1 & Hlog & _).
    destruct (run_body w hk value c s) as [s2|r] eqn:Hbody.
    + injection Hs1 as ->. destruct (IH s1) as (s' & t' & Hs' & Hlog').
      exists s', (t ++ t'). split; [done|]. by rewrite Hlog', Hlog, app_assoc.
    + by exists s1, t.
Qed.

(** *** Failures of [fcntl] only show in the log *)

Lemma hush_congr a b :
  rc_in_plugin a = rc_in_plugin b → plugins a = plugins b →
  heap a = heap b → dl_open a = dl_open b → environ a = environ b →
  sigmask a = sigmask b → tick a = tick b →
  List.filter no_fcntl (log a) = List.filter no_fcntl (log b) →
  hush a = hush b.
Proof. unfold hush. by intros -> -> -> -> -> -> -> ->. Qed.

Lemma hush_fields a b :
  hush a = hush b →
  rc_in_plugin a = rc_in_plugin b ∧ plugins a = plugins b ∧
  heap a = heap b ∧ dl_open a = dl_open b ∧ environ a = environ b ∧
  sigmask a = sigmask b ∧ tick a = tick b ∧
  List.filter no_fcntl (log a) = List.filter no_fcntl (log b).
Proof. unfold hush. by intros [= -> -> -> -> -> -> -> ->]. Qed.

Lemma filter_fcntl t :
  Forall (λ ev, ev = Eerror "fcntl") t → List.filter no_fcntl t = [].
Proof. induction 1 as [|ev t -> _ IH]; [done|]. exact IH. Qed.

Lemma set_cloexec_calm o s : set_cloexec (calm o) s = s.
Proof. done. Qed.

Lemma hush_run_body c s s2 :
  hush s = hush s2 →
  hush_flow (run_body w hk value c s) =
  hush_flow (run_body (calm_world w) hk value c s2).
Proof.
  intros Hs. pose proof Hs as Heq.
  apply hush_fields in Heq as (Hin & Hp & Hh & Hdl & Henv & Hsig & Htick & Hlog).
  unfold run_body. destruct (hook c) as [f|]; [|simpl; by rewrite Hs].
  change (kernel (calm_world w) (tick s2)) with (calm (kernel w (tick s2))).
  change (BUFSIZ (calm_world w)) with (BUFSIZ w).
  rewrite set_cloexec_calm, <- Htick.
  destruct (set_cloexec_log (kernel w (tick s)) (set_tick (S (tick s)) s))
    as (t & -> & Ht%filter_fcntl).
  change (sys_pipe (calm ?o)) with (sys_pipe o).
  change (sys_fork (calm ?o)) with (sys_fork o).
  change (sys_read (calm ?o)) with (sys_read o).
  change (sys_wait (calm ?o)) with (sys_wait o).
  destruct (sys_pipe _); simpl.
  2:{ do 2 f_equal. apply hush_congr; simpl; try done.
      rewrite !List.filter_app. by rewrite Hlog. }
  destruct (sys_fork _) as [|pid]; simpl.
  { do 2 f_equal. apply hush_congr; simpl; try done.
    rewrite !List.filter_app. by rewrite Hlog, Ht, app_nil_r. }
  rewrite <- Henv.
  destruct (read_loop _ _ _ _) as [[m' e']|fl [m' e']|]; simpl; [| |done].
  - f_equal. apply hush_congr; simpl; try done.
    rewrite !List.filter_app. by rewrite Hlog, Ht, app_nil_r.
  - do 2 f_equal. apply hush_congr; simpl; try done.
    rewrite !List.filter_app. by rewrite Hlog, Ht, app_nil_r.
Qed.

Lemma hush_run_loop fuel p s s2 :
  hush s = hush s2 →
  hush_outcome (run_loop w hk value fuel p s) =
  hush_outcome (run_loop (calm_world w) hk value fuel p s2).
Proof.
  revert p s s2. induction fuel as [|fuel IH]; intros [a|] s s2 Hs; simpl;
    try done; try (by rewrite Hs).
  pose proof Hs as Heq.
  apply hush_fields in Heq as (_ & _ & <- & _).
  destruct (heap s !! a) as [[c|]|]; simpl; try (by rewrite Hs).
  pose proof (hush_run_body c s s2 Hs) as Hbody.
  destruct (run_body w hk value c s) as [s'|r],
           (run_body (calm_world w) hk value c s2) as [s2'|r2];
    simpl in Hbody; try done.
  - apply IH. congruence.
  - congruence.
Qed.

Lemma hush_rc_plugin_run s :
  hush_outcome (rc_plugin_run w hk value s) =
  hush_outcome (rc_plugin_run (calm_world w) hk value s).
Proof.
  unfold rc_plugin_run. destruct (rc_in_plugin s); [done|].
  by apply hush_run_loop.
Qed.


Lemma exit_status_reaped pid ret :
  (0 < pid)%Z →
  rc_waitpid pid [(pid, W_EXITCODE ret 0)] = (ret mod 256)%Z.
Proof.
  intros Hpid. unfold rc_waitpid. simpl.
  assert ((0 <? pid)%Z = true) as -> by lia.
  by rewrite Z.eqb_refl, WIFEXITED_exit, WEXITSTATUS_exit.
Qed.

End Run.

(** C8.  When [fork] fails for the plugin [c], reached after the plugins
    [pre] were dispatched, [rc_plugin_run] returns; since [c] was reached
    it has only logged the [fcntl] errors of this turn and the [fork]
    error: no subprocess was forked for [c] or for any plugin after it. *)
Theorem fork_failure_aborts (w : world) (hk : rc_hook_t) (value : string)
    (s s1 : state) (pre post : list plugin_t) (c : plugin_t) (f : hook_fn) :
  rc_in_plugin s = false →
  registry s (pre ++ c :: post) →
  run_through w hk value pre s = Next s1 →
  hook c = Some f →
  sys_pipe (kernel w (tick s1)) = true →
  sys_fork (kernel w (tick s1)) = ForkFailed →
  ∃ s' t,
    rc_plugin_run w hk value s = Done s' ∧
    log s' = log s1 ++ t ++ [Eerror "fork"] ∧
    Forall (λ ev, ev = Eerror "fcntl") t ∧
    forks (log s') = forks (log s1) ∧
    environ s' = environ s1.
Proof.
  intros Hin Hreg Hpre Hf Hp Hfork.
  rewrite (rc_plugin_run_at w hk value pre c post s s1 Hin Hreg Hpre).
  destruct (run_body_fork_failed w hk value c s1 f Hf Hp Hfork)
    as (t & Ht & ->).
  eexists _, t. split_and!; [done| |done| |done].
  - simpl. by rewrite <- app_assoc.
  - simpl. rewrite !forks_app, (forks_fcntl _ Ht). simpl.
    by rewrite !app_nil_r.
Qed.

(** What the [fcntl] loop logs, exactly. *)
Lemma set_cloexec_errors (o : syscalls) (s : state) :
  set_cloexec o s = add_logs (fcntl_errors o) s.
Proof.
  unfold set_cloexec, fcntl_errors, eerror, add_logs. simpl.
  destruct (cloexec_failed o 0), (cloexec_failed o 1); simpl;
    try done; try (by rewrite <- app_assoc).
  rewrite app_nil_r. by destruct s.
Qed.

(** A turn with a pipe and a child: the [fcntl] errors are logged, then
    the child is forked, however the turn goes on. *)
Lemma run_body_fcntl_forks (w : world) (hk : rc_hook_t) (value : string)
    (c : plugin_t) (s : state) (f : hook_fn) (pid : Z) :
  hook c = Some f → sys_pipe (kernel w (tick s)) = true →
  sys_fork (kernel w (tick s)) = ForkParent pid →
  ∃ s' t, flow_state (run_body w hk value c s) = Some s' ∧
          log s' = log s ++ fcntl_errors (kernel w (tick s))
                     ++ Forked (name c) pid (environ s) :: t.
Proof.
  intros Hf Hp Hfork. unfold run_body. rewrite Hf, Hp, Hfork. simpl.
  rewrite set_cloexec_errors. simpl.
  destruct (read_loop _ _ _ _) as [[m' e']|fl [m' e']|] eqn:Hread; simpl.
  - eexists _, [_]. split; [done|]. simpl. by rewrite <- !app_assoc.
  - eexists _, []. split; [done|]. simpl. by rewrite <- !app_assoc.
  - by apply read_loop_fuel in Hread.
Qed.

(** C2, amended.  When the pipe cannot be created for the plugin [c],
    [rc_plugin_run] logs the error and returns at once: nothing else is
    logged, so no plugin after [c] is dispatched.  When the pipe is
    there, one ["fcntl"] error is logged for each end of the pipe whose
    close-on-exec flag could not be set, and the dispatch goes on: the
    subprocess of [c] is forked next.  Failures of [fcntl] change
    nothing else: apart from their log entries the run is the one of a
    kernel on which [fcntl] succeeds. *)
Theorem pipe_failure_returns (w : world) (hk : rc_hook_t) (value : string)
    (s s1 : state) (pre post : list plugin_t) (c : plugin_t) (f : hook_fn) :
  rc_in_plugin s = false →
  registry s (pre ++ c :: post) →
  run_through w hk value pre s = Next s1 →
  hook c = Some f →
  (sys_pipe (kernel w (tick s1)) = false →
   ∃ s', rc_plugin_run w hk value s = Done s' ∧
         log s' = log s1 ++ [Eerror "pipe"] ∧
         environ s' = environ s1 ∧ sigmask s' = sigmask s1) ∧
  (sys_pipe (kernel w (tick s1)) = true →
   ∀ pid, sys_fork (kernel w (tick s1)) = ForkParent pid →
   ∃ s' t, final (rc_plugin_run w hk value s) = Some s' ∧
           log s' = log s1 ++ fcntl_errors (kernel w (tick s1))
                      ++ Forked (name c) pid (environ s1) :: t) ∧
  hush_outcome (rc_plugin_run w hk value s) =
  hush_outcome (rc_plugin_run (calm_world w) hk value s).
Proof.
  intros Hin Hreg Hpre Hf. split_and!; [| |apply hush_rc_plugin_run].
  - intros Hp.
    rewrite (rc_plugin_run_at w hk value pre c post s s1 Hin Hreg Hpre).
    rewrite (run_body_pipe_failed w hk value c s1 f Hf Hp).
    by eexists.
  - intros Hp pid Hfork.
    rewrite (rc_plugin_run_at w hk value pre c post s s1 Hin Hreg Hpre).
    destruct (run_body_fcntl_forks w hk value c s1 f pid Hf Hp Hfork)
      as (s2 & t & Hs2 & Hlog2).
    unfold flow_state in Hs2.
    destruct (run_body w hk value c s1) as [s2'|r] eqn:Hbody.
    + injection Hs2 as ->.
      destruct (run_through_log w hk value post s2) as (s' & t' & Hs' & Hlog').
      exists s', (t ++ t'). split; [done|].
      rewrite Hlog', Hlog2. by norm_app.
    + exists s2, t. by split.
Qed.



(** C6.  When the hook of [c] returns [r] in a subprocess that the
    kernel then hands to [waitpid] once, the status the dispatcher gets
    from [rc_waitpid] is [r mod 256]. *)
Theorem exit_status_captured (w : world) (hk : rc_hook_t) (value : string)
    (s s1 : state) (pre post : list plugin_t) (c : plugin_t) (f : hook_fn)
    (pid r : Z) (out m1 : list ascii) (e1 : env) :
  rc_in_plugin s = false →
  registry s (pre ++ c :: post) →
  run_through w hk value pre s = Next s1 →
  hook c = Some f →
  sys_pipe (kernel w (tick s1)) = true →
  sys_fork (kernel w (tick s1)) = ForkParent pid → (0 < pid)%Z →
  f hk value (environ s1) = Returns out r →
  read_loop (BUFSIZ w) (sys_read (kernel w (tick s1)) out)
    (repeat NUL (BUFSIZ w)) (environ s1) = Done (m1, e1) →
  sys_wait (kernel w (tick s1)) (W_EXITCODE r 0) = [(pid, W_EXITCODE r 0)] →
  ∃ s' t1 t2,
    final (rc_plugin_run w hk value s) = Some s' ∧
    log s' = log s1 ++ t1 ++ Reaped pid (r mod 256) :: t2.
Proof.
  intros Hin Hreg Hpre Hf Hp Hfork Hpid Hret Hread Hwait.
  rewrite (rc_plugin_run_at w hk value pre c post s s1 Hin Hreg Hpre).
  destruct (run_body_forked w hk value c s1 f pid m1 e1 Hf Hp Hfork)
    as (t1 & s2 & Ht1 & -> & _ & _ & _ & Hlog2); [by rewrite Hret|].
  rewrite Hret, Hwait, exit_status_reaped in Hlog2 by done.
  destruct (run_through_log w hk value post s2) as (s' & t' & Hs' & Hlog').
  exists s', (t1 ++ [Forked (name c) pid (environ s1)]), t'.
  split; [done|]. rewrite Hlog', Hlog2. by rewrite <- !app_assoc.
Qed.

(** ** The sample host *)

Lemma registry_loaded : registry loaded [cell_a; cell_b].
Proof.
  exists 0. split_and!; [done|vm_compute; reflexivity|].
  exists 1. split_and!; [done|vm_compute; reflexivity|done].
Qed.

(** The stream [FOO=bar\0BAZ=\0] read in one chunk: [FOO] is set to
    [bar], and [BAZ], which was set, is unset. *)
Lemma read_loop_records_witness :
  ∃ m', read_loop 64 [wire [("FOO", "bar"); ("BAZ", "")]] (repeat NUL 64)
          {["BAZ" := "old"]}
        = Done (m', {["FOO" := "bar"]}).
Proof.
  destruct (read_loop_records 64 [[("FOO", "bar"); ("BAZ", "")]]
              (repeat NUL 64) {["BAZ" := "old"]}) as [m' Hm'].
  - reflexivity.
  - repeat constructor; try discriminate; simpl; lia.
  - exists m'. etrans; [exact Hm'|]. vm_compute. reflexivity.
Defined.

(** C3, the claim as stated fails.  The child writes [A=1\0C=3\0] and
    [read] returns it as [A=1] and [\0C=3\0].  The record [C=3\0] lies
    wholly in the second chunk, yet it is never applied: the decoding of
    a chunk starts at its first byte and stops at the NUL found there. *)
Lemma record_in_chunk_not_applied :
  ∃ m' e',
    read_loop 64 [bytes "A=1"; NUL :: wire [("C", "3")]] (repeat NUL 64) ∅
    = Done (m', e') ∧
    e' !! "A" = Some "1" ∧ e' !! "C" = None.
Proof.
  eexists _, _. split; [vm_compute; reflexivity|].
  split; vm_compute; reflexivity.
Qed.

(** The chunk [FOO\0]. *)
Lemma decode_chunk_null_deref_witness :
  decode_chunk 4 (bytes "FOO" ++ NUL :: repeat NUL 60) ∅
  = Fault NullDeref (bytes "FOO" ++ NUL :: repeat NUL 60, unsetenv "FOO" ∅).
Proof.
  apply (decode_chunk_null_deref 4 "FOO" (repeat NUL 60) ∅);
    [discriminate|reflexivity|reflexivity|lia].
Defined.

(** A first child 7 is reaped, then the awaited child 42, which had
    called [exit (7)]. *)
Lemma rc_waitpid_result_witness :
  rc_waitpid 42 [(7%Z, 0%Z); (42%Z, W_EXITCODE 7 0)] = 7%Z.
Proof.
  destruct (rc_waitpid_result 42 [(7%Z, 0%Z); (42%Z, W_EXITCODE 7 0)])
    as [_ Hmatch].
  - lia.
  - repeat constructor; simpl; lia.
  - rewrite (Hmatch [(7%Z, 0%Z)] (W_EXITCODE 7 0) []); [reflexivity..|].
    simpl. apply not_elem_of_nil.
Defined.

Lemma in_plugin_noop_witness :
  rc_plugin_load (plugindir kernel_ok) in_child = Done in_child ∧
  rc_plugin_run (plugindir kernel_ok) 0%Z "boot" in_child = Done in_child.
Proof. apply in_plugin_noop. reflexivity. Defined.

(** [nohook.so] between [a.so] and [b.so]. *)
Lemma load_skips_unresolved_witness :
  ∃ s' l,
    rc_plugin_load (plugindir kernel_ok) host = Done s' ∧ registry s' l ∧
    entry_of <$> l = loadable (plugindir kernel_ok) ["."; ".."; "a.so"]
                     ++ loadable (plugindir kernel_ok) ["b.so"; "README"] ∧
    (∀ c, c ∈ l → name c ≠ "nohook.so" ∧ handle c ≠ 3) ∧
    dl_open s' = reverse (handle <$> l) ++ dl_open host ∧
    log s' = log host ++ load_errors (plugindir kernel_ok) ["."; ".."; "a.so"]
               ++ Eerror (no_symbol "nohook.so")
               :: load_errors (plugindir kernel_ok) ["b.so"; "README"].
Proof.
  apply (load_skips_unresolved (plugindir kernel_ok) host
           ["."; ".."; "a.so"] ["b.so"; "README"] "nohook.so" 3);
    reflexivity.
Defined.

(** [fork] fails for [a.so]: [b.so] is not dispatched. *)
Lemma fork_failure_aborts_witness :
  ∃ s' t,
    rc_plugin_run (plugindir kernel_nofork) 0%Z "boot" loaded = Done s' ∧
    log s' = log loaded ++ t ++ [Eerror "fork"] ∧
    Forall (λ ev, ev = Eerror "fcntl") t ∧
    forks (log s') = forks (log loaded) ∧
    environ s' = environ loaded.
Proof.
  apply (fork_failure_aborts (plugindir kernel_nofork) 0%Z "boot"
           loaded loaded [] [cell_b] cell_a hook_a);
    [reflexivity|exact registry_loaded|reflexivity..].
Defined.

(** C2, the claim as stated fails: the pipe cannot be created for
    [a.so] only, and [b.so], which follows it in the registry, is not
    dispatched. *)
Lemma pipe_failure_skips_rest :
  registry loaded [cell_a; cell_b] ∧
  sys_pipe (kernel_nopipe 0) = false ∧ sys_pipe (kernel_nopipe 1) = true ∧
  ∃ s', rc_plugin_run (plugindir kernel_nopipe) 0%Z "boot" loaded = Done s' ∧
        log s' = log loaded ++ [Eerror "pipe"] ∧
        "b.so" ∉ (forks (log s')).*1.
Proof.
  split; [exact registry_loaded|]. split_and!; [done..|].
  eexists. split; [vm_compute; reflexivity|]. split; [done|].
  vm_compute. apply not_elem_of_nil.
Qed.

(** The pipe cannot be created for [a.so]; and, on another kernel,
    [fcntl] fails for both ends of the pipe of [a.so]: two errors are
    logged, then [a.so] is forked. *)
Lemma pipe_failure_returns_witness :
  (∃ s', rc_plugin_run (plugindir kernel_nopipe) 0%Z "boot" loaded = Done s' ∧
         log s' = log loaded ++ [Eerror "pipe"] ∧
         environ s' = environ loaded ∧ sigmask s' = sigmask loaded) ∧
  (∃ s' t,
     final (rc_plugin_run (plugindir kernel_nofcntl) 0%Z "boot" loaded)
     = Some s' ∧
     log s' = log loaded ++ [Eerror "fcntl"; Eerror "fcntl"]
                ++ Forked "a.so" 100 (environ loaded) :: t).
Proof.
  split.
  - apply (pipe_failure_returns (plugindir kernel_nopipe) 0%Z "boot"
             loaded loaded [] [cell_b] cell_a hook_a);
      [reflexivity|exact registry_loaded|reflexivity..].
  - apply (pipe_failure_returns (plugindir kernel_nofcntl) 0%Z "boot"
             loaded loaded [] [cell_b] cell_a hook_a);
      [reflexivity|exact registry_loaded|reflexivity..].
Defined.


(** [b.so] returns 7. *)
Lemma exit_status_captured_witness :
  ∃ s' t1 t2,
    final (rc_plugin_run (plugindir kernel_ok) 0%Z "boot" loaded) = Some s' ∧
    log s' = log after_a ++ t1 ++ Reaped 101 (7 mod 256) :: t2.
Proof.
  eapply (exit_status_captured (plugindir kernel_ok) 0%Z "boot"
            loaded after_a [cell_a] [] cell_b hook_b 101 7
            (wire [("SEEN", "1")])).
  - reflexivity.
  - exact registry_loaded.
  - vm_compute. reflexivity.
  - reflexivity.
  - reflexivity.
  - reflexivity.
  - lia.
  - vm_compute. reflexivity.
  - vm_compute. reflexivity.
  - reflexivity.
Defined.

(** * Further properties of the registry *)

Section Unload.

Implicit Types (h : list (option plugin_t)) (s : state) (l : list plugin_t).

Lemma live_snoc h c : live (h ++ [Some c]) = S (live h).
Proof. induction h as [|[x|] h IH]; simpl; lia. Qed.

Lemma live_insert_live h a c x :
  h !! a = Some (Some c) → live (<[a := Some x]> h) = live h.
Proof.
  revert a. induction h as [|o h IH]; intros [|a]; simpl; try done.
  - by intros [= ->].
  - intros Ha. destruct o; simpl; by rewrite (IH _ Ha).
Qed.

Lemma release_elem_app x front d :
  x ∈ front → release x (front ++ d) = release x front ++ d.
Proof.
  induction front as [|y front IH]; simpl; [by intros ?%elem_of_nil|].
  intros Hin. destruct (Nat.eqb y x) eqn:Hy; [done|].
  apply elem_of_cons in Hin as [->|Hin]; [by rewrite Nat.eqb_refl in Hy|].
  by rewrite IH.
Qed.

Lemma release_perm x front : x ∈ front → front ≡ₚ x :: release x front.
Proof.
  induction front as [|y front IH]; simpl; [by intros ?%elem_of_nil|].
  intros Hin. destruct (Nat.eqb y x) eqn:Hy.
  - apply Nat.eqb_eq in Hy as ->. done.
  - apply elem_of_cons in Hin as [->|Hin]; [by rewrite Nat.eqb_refl in Hy|].
    rewrite (IH Hin) at 1. apply Permutation_swap.
Qed.

(** Releasing the handles [hs] from a list that holds them in front, in
    any order, gives back what was behind them. *)
Lemma release_all_front hs front d :
  front ≡ₚ hs → release_all hs (front ++ d) = d.
Proof.
  unfold release_all. revert front.
  induction hs as [|x hs IH]; intros front Hp; simpl.
  - by apply Permutation_nil_r in Hp as ->.
  - assert (x ∈ front) as Hin by (rewrite Hp; apply elem_of_cons; by left).
    rewrite release_elem_app by done. apply IH.
    apply (Permutation_cons_inv (a := x)).
    by rewrite <- release_perm.
Qed.

(** Unloading a chain: each of its cells is freed and no other, one
    reference is dropped per cell, and nothing else changes. *)
Lemma unload_loop_spec l fuel p s :
  lseg (heap s) p None l → length l < fuel →
  ∃ s', unload_loop fuel p s = Done s' ∧ plugins s' = None ∧
        (∀ a, a ∈ path p l → heap s' !! a = Some None) ∧
        length (heap s') = length (heap s) ∧
        live (heap s') + length l = live (heap s) ∧
        dl_open s' = release_all (handle <$> l) (dl_open s) ∧
        same_process s s'.
Proof.
  revert fuel p s. induction l as [|c l IH]; intros fuel p s Hl Hfuel.
  - simpl in Hl. subst p. exists (set_plugins None s).
    split_and!; try done; try (by destruct fuel); try (simpl; lia).
    simpl. by intros a ?%elem_of_nil.
  - pose proof (NoDup_path _ _ _ Hl) as Hnd.
    destruct Hl as (a & -> & Ha & Hl). simpl in Hnd.
    apply NoDup_cons in Hnd as [Hnot _].
    destruct fuel as [|fuel]; [simpl in Hfuel; lia|]. simpl. rewrite Ha.
    destruct (unload_loop_chain l fuel (next c) (free a (dlclose (handle c) s)))
      as (s0 & Hrun0 & _ & _ & Hkeep & _).
    { simpl. by apply lseg_insert_off_path. }
    { simpl in Hfuel. lia. }
    destruct (IH fuel (next c) (free a (dlclose (handle c) s)))
      as (s' & Hrun & Hp & Hpath & Hlen & Hlive & Hdl & Hsame).
    { simpl. by apply lseg_insert_off_path. }
    { simpl in Hfuel. lia. }
    rewrite Hrun in Hrun0. injection Hrun0 as <-.
    exists s'. split_and!; try done.
    + intros a' [->|Ha']%elem_of_cons; [|by apply Hpath].
      apply Hkeep. simpl. apply list_lookup_insert_eq.
      by eapply lookup_lt_Some.
    + rewrite Hlen. simpl. by rewrite length_insert.
    + simpl in Hlive. apply live_free in Ha. lia.
Qed.

Lemma unload_loop_plugins fuel p s s' :
  unload_loop fuel p s = Done s' → plugins s' = None.
Proof.
  revert p s. induction fuel as [|fuel IH]; intros [a|] s; simpl; try done;
    try (by intros [= <-]).
  destruct (heap s !! a) as [[c|]|]; [|done..]. apply IH.
Qed.

End Unload.

Section Reload.

Variable w : world.
Implicit Types (s : state) (l : list plugin_t) (ents : list string).

Lemma rc_plugin_unload_registry s l :
  registry s l →
  ∃ s', rc_plugin_unload s = Done s' ∧ plugins s' = None ∧
        (∀ a, a ∈ path (plugins s) l → heap s' !! a = Some None) ∧
        length (heap s') = length (heap s) ∧
        live (heap s') + length l = live (heap s) ∧
        dl_open s' = release_all (handle <$> l) (dl_open s) ∧
        same_process s s'.
Proof.
  intros Hreg. apply unload_loop_spec; [done|].
  apply lseg_length in Hreg. lia.
Qed.

(** The cells and the rest of the state after the [readdir] loop. *)
Lemma load_loop_live ents plugin s s' :
  load_loop w ents plugin s = Done s' →
  live (heap s') = live (heap s) + length (loadable w ents) ∧
  sigmask s' = sigmask s ∧ tick s' = tick s.
Proof.
  revert plugin s. induction ents as [|d_name rest IH]; intros plugin s; simpl.
  - intros [= <-]. split_and!; [lia|done..].
  - destruct (hidden d_name); [by apply IH|].
    destruct (dlopen w d_name) as [h|].
    2:{ intros Hrun. by destruct (IH _ _ Hrun) as (-> & -> & ->). }
    destruct (dlfunc w h) as [fptr|].
    2:{ intros Hrun. by destruct (IH _ _ Hrun) as (-> & -> & ->). }
    destruct plugin as [a|].
    + destruct ((heap s ++ [Some blank]) !! a) as [[c|]|] eqn:Ha; [|done..].
      intros Hrun. destruct (IH _ _ Hrun) as (-> & -> & ->). simpl.
      split_and!; [|done..].
      assert (∃ x, <[a:=Some (set_next (Some (length (heap s))) c)]>
                     (heap s ++ [Some blank]) !! length (heap s)
                   = Some (Some x)) as [x Hx].
      { destruct (decide (a = length (heap s))) as [->|Hne].
        - eexists. apply list_lookup_insert_eq. rewrite length_app. simpl. lia.
        - eexists. rewrite list_lookup_insert_ne by done.
          by rewrite lookup_app_r, Nat.sub_diag by lia. }
      rewrite (live_insert_live _ _ _ _ Hx), (live_insert_live _ _ _ _ Ha).
      rewrite live_snoc. lia.
    + intros Hrun. destruct (IH _ _ Hrun) as (-> & -> & ->). simpl.
      split_and!; [|done..].
      rewrite insert_snoc, live_snoc. lia.
Qed.

Lemma forks_load_errors ents : forks (load_errors w ents) = [].
Proof.
  induction ents as [|d_name rest IH]; simpl; [done|].
  destruct (hidden d_name); [done|].
  destruct (dlopen w d_name) as [h|]; [|done]. by destruct (dlfunc w h).
Qed.

(** When nothing in the listing loads, the loop never looks at [plugin]. *)
Lemma load_loop_nothing ents plugin s :
  loadable w ents = [] →
  ∃ s', load_loop w ents plugin s = Done s' ∧
        plugins s' = plugins s ∧ heap s' = heap s ∧ dl_open s' = dl_open s ∧
        environ s' = environ s ∧ log s' = log s ++ load_errors w ents.
Proof.
  revert s. induction ents as [|d_name rest IH]; intros s; simpl.
  - intros _. exists s. by rewrite app_nil_r.
  - destruct (hidden d_name); [by apply IH|].
    destruct (dlopen w d_name) as [h|].
    + destruct (dlfunc w h) as [fptr|]; [done|]. intros Hl.
      destruct (IH (dlclose h (eerror (no_symbol d_name) (sys_dlopen h s))) Hl)
        as (s' & -> & Hp & Hh & Hdl & He & Hlog).
      exists s'. split_and!; try done.
      * rewrite Hdl. simpl. by rewrite Nat.eqb_refl.
      * rewrite Hlog. simpl. by rewrite <- app_assoc.
    + intros Hl. destruct (IH (eerror "dlopen" s) Hl)
        as (s' & -> & Hp & Hh & Hdl & He & Hlog).
      exists s'. split_and!; try done.
      rewrite Hlog. simpl. by rewrite <- app_assoc.
Qed.

End Reload.

(** X1.  The first load (the registry is empty) returns, and the
    registry then holds one record per loadable entry of the listing, in
    scan order, each with its hook; one cell was allocated and one
    reference is held per record; one error was logged per entry that
    failed, and the environment is untouched. *)
Theorem first_load_builds_registry (w : world) (s : state)
    (ents : list string) :
  rc_in_plugin s = false → plugins s = None → opendir w = Some ents →
  ∃ s' l,
    rc_plugin_load w s = Done s' ∧ registry s' l ∧
    entry_of <$> l = loadable w ents ∧
    Forall (λ c, is_Some (hook c)) l ∧
    live (heap s') = live (heap s) + length l ∧
    dl_open s' = reverse (handle <$> l) ++ dl_open s ∧
    environ s' = environ s ∧
    log s' = log s ++ load_errors w ents.
Proof.
  intros Hin Hp Hdir.
  destruct (rc_plugin_load_empty w s ents Hin Hp Hdir)
    as (s' & l & Hload & Hreg & Hl & Hdl & Henv & Hlog).
  exists s', l. split_and!; try done.
  - apply Forall_forall. intros c Hc.
    assert (entry_of c ∈ loadable w ents) as Hel.
    { rewrite <- Hl. by apply list_elem_of_fmap_2. }
    apply loadable_elem in Hel as (_ & fptr & Hhook & _).
    simpl in Hhook. by rewrite Hhook.
  - revert Hload. unfold rc_plugin_load, rc_plugin_unload.
    rewrite Hin, Hp, Hdir. simpl. intros Hload.
    apply load_loop_live in Hload as (-> & _). simpl.
    by rewrite <- Hl, length_fmap.
  - rewrite Hdl, <- Hl. do 2 f_equal. by rewrite <- !list_fmap_compose.
Qed.

(** X2.  Names that start with a dot are never tried: two worlds with
    the same listing that agree on [dlopen] for the other names of the
    listing, and on [dlfunc], load the same. *)
Theorem load_ignores_hidden (w w' : world) (s : state) :
  opendir w = opendir w' →
  (∀ d_name ents, opendir w = Some ents → d_name ∈ ents →
                  hidden d_name = false → dlopen w d_name = dlopen w' d_name) →
  (∀ h, dlfunc w h = dlfunc w' h) →
  rc_plugin_load w s = rc_plugin_load w' s.
Proof.
  intros Hdir Hopen Hfunc. unfold rc_plugin_load. rewrite <- Hdir.
  destruct (rc_in_plugin s); [done|].
  destruct (rc_plugin_unload s) as [s1| |]; [|done..].
  destruct (opendir w) as [ents|]; [|done].
  specialize (Hopen) as Hopen'.
  assert (∀ d_name, d_name ∈ ents → hidden d_name = false →
                    dlopen w d_name = dlopen w' d_name) as Ho by eauto.
  clear Hopen Hopen' Hdir. generalize (plugins s). revert s1.
  induction ents as [|d_name rest IH]; intros s1 plugin; simpl; [done|].
  assert (∀ d, d ∈ rest → hidden d = false → dlopen w d = dlopen w' d) as Ho'.
  { intros d Hd. apply Ho. apply elem_of_cons. by right. }
  destruct (hidden d_name) eqn:Hh; [by apply IH|].
  rewrite <- (Ho d_name) by (done || apply elem_of_cons; by left).
  destruct (dlopen w d_name) as [h|]; [|by apply IH].
  rewrite <- Hfunc. destruct (dlfunc w h) as [fptr|]; [|by apply IH].
  destruct plugin as [a|]; [|by apply IH].
  destruct (_ !! a) as [[c|]|]; [|done..]. by apply IH.
Qed.

(** X3.  [rc_plugin_unload] on a registry of the cells [l] returns; the
    registry is then empty, every cell of [l] is freed and no other, one
    reference was dropped per cell, in chain order, and the rest of the
    process state is as before. *)
Theorem unload_releases_all (s : state) (l : list plugin_t) :
  registry s l →
  ∃ s', rc_plugin_unload s = Done s' ∧ registry s' [] ∧
        (∀ a, a ∈ path (plugins s) l → heap s' !! a = Some None) ∧
        live (heap s') + length l = live (heap s) ∧
        dl_open s' = release_all (handle <$> l) (dl_open s) ∧
        same_process s s'.
Proof.
  intros Hreg.
  destruct (rc_plugin_unload_registry s l Hreg)
    as (s' & Hrun & Hp & Hfreed & _ & Hlive & Hdl & Hsame).
  by exists s'.
Qed.

(** X4.  A second [rc_plugin_unload] changes nothing: whenever unload
    returns, unloading the state it returned gives that state back. *)
Theorem unload_idempotent (s s' : state) :
  rc_plugin_unload s = Done s' → rc_plugin_unload s' = Done s'.
Proof.
  intros Hp%unload_loop_plugins. unfold rc_plugin_unload. rewrite Hp. simpl.
  f_equal. destruct s'. simpl in Hp. by subst.
Qed.

(** X5.  Unload after the first load undoes it: every cell that the load
    allocated is freed again, the references it took are dropped (the
    handles held are exactly those held before the load), and the
    registry is empty. *)
Theorem load_unload_round_trip (w : world) (s : state) (ents : list string) :
  rc_in_plugin s = false → plugins s = None → opendir w = Some ents →
  ∃ s1 s2,
    rc_plugin_load w s = Done s1 ∧ rc_plugin_unload s1 = Done s2 ∧
    registry s2 [] ∧ live (heap s2) = live (heap s) ∧
    dl_open s2 = dl_open s ∧ environ s2 = environ s.
Proof.
  intros Hin Hp Hdir.
  destruct (rc_plugin_load_empty w s ents Hin Hp Hdir)
    as (s1 & l & Hload & Hreg & Hl & Hdl & Henv & _).
  assert (live (heap s1) = live (heap s) + length l) as Hlive.
  { revert Hload. unfold rc_plugin_load, rc_plugin_unload.
    rewrite Hin, Hp, Hdir. simpl. intros Hload.
    apply load_loop_live in Hload as (-> & _). simpl.
    by rewrite <- Hl, length_fmap. }
  destruct (rc_plugin_unload_registry s1 l Hreg)
    as (s2 & Hun & Hp2 & _ & _ & Hlive2 & Hdl2 & (_ & Henv2 & _)).
  exists s1, s2. split_and!; try done; [lia| |congruence].
  rewrite Hdl2, Hdl. apply release_all_front.
  rewrite reverse_Permutation, <- Hl.
  by rewrite <- !list_fmap_compose.
Qed.

(** X6.  Reloading is safe after an explicit unload: the load that
    follows [rc_plugin_unload] builds the registry of the listing, in
    scan order, and the references of the old records are gone. *)
Theorem unload_then_load (w : world) (s : state) (l : list plugin_t)
    (ents : list string) :
  rc_in_plugin s = false → registry s l → opendir w = Some ents →
  ∃ s1 s2 l2,
    rc_plugin_unload s = Done s1 ∧ rc_plugin_load w s1 = Done s2 ∧
    registry s2 l2 ∧ entry_of <$> l2 = loadable w ents ∧
    dl_open s2 = reverse (handle <$> l2)
                 ++ release_all (handle <$> l) (dl_open s).
Proof.
  intros Hin Hreg Hdir.
  destruct (rc_plugin_unload_registry s l Hreg)
    as (s1 & Hun & Hp1 & _ & _ & _ & Hdl1 & (Hin1 & _)).
  rewrite Hin in Hin1.
  destruct (rc_plugin_load_empty w s1 ents Hin1 Hp1 Hdir)
    as (s2 & l2 & Hload & Hreg2 & Hl2 & Hdl2 & _).
  exists s1, s2, l2. split_and!; try done.
  rewrite Hdl2, Hdl1, <- Hl2. do 2 f_equal.
  by rewrite <- !list_fmap_compose.
Qed.

(** X7.  When the plugin directory cannot be opened, [rc_plugin_load]
    still unloads: it returns with an empty registry, the cells of the
    old records freed and their references dropped, and logs nothing. *)
Theorem load_missing_directory (w : world) (s : state) (l : list plugin_t) :
  rc_in_plugin s = false → registry s l → opendir w = None →
  ∃ s', rc_plugin_load w s = Done s' ∧ registry s' [] ∧
        live (heap s') + length l = live (heap s) ∧
        dl_open s' = release_all (handle <$> l) (dl_open s) ∧
        environ s' = environ s ∧ log s' = log s.
Proof.
  intros Hin Hreg Hdir.
  destruct (rc_plugin_unload_registry s l Hreg)
    as (s' & Hun & Hp & _ & _ & Hlive & Hdl & (_ & Henv & _ & _ & Hlog)).
  exists s'. unfold rc_plugin_load. by rewrite Hin, Hun, Hdir.
Qed.

(** X8.  When the listing holds nothing that loads, a reload of a
    populated registry returns: the stale [plugin] is never used, the
    registry is left empty and one error is logged per failed entry. *)
Theorem reload_nothing_loadable (w : world) (s : state) (l : list plugin_t)
    (ents : list string) :
  rc_in_plugin s = false → registry s l → opendir w = Some ents →
  loadable w ents = [] →
  ∃ s', rc_plugin_load w s = Done s' ∧ registry s' [] ∧
        live (heap s') + length l = live (heap s) ∧
        dl_open s' = release_all (handle <$> l) (dl_open s) ∧
        environ s' = environ s ∧ log s' = log s ++ load_errors w ents.
Proof.
  intros Hin Hreg Hdir Hnone.
  destruct (rc_plugin_unload_registry s l Hreg)
    as (s1 & Hun & Hp & _ & _ & Hlive & Hdl & (_ & Henv & _ & _ & Hlog)).
  destruct (load_loop_nothing w ents (plugins s) s1 Hnone)
    as (s' & Hrun & Hp' & Hh' & Hdl' & Henv' & Hlog').
  exists s'. unfold rc_plugin_load. rewrite Hin, Hun, Hdir, Hrun.
  split_and!; try done; try congruence.
Qed.

(** * Further properties of the decoder *)

Section DecoderMore.

Implicit Types (m pre rest t : list ascii) (e : env) (k v : string).

Lemma patched_refl m : patched m m.
Proof. split; [done|]. intros i. by left. Qed.

Lemma patched_trans m1 m2 m3 : patched m1 m2 → patched m2 m3 → patched m1 m3.
Proof.
  intros [Hl1 H1] [Hl2 H2]. split; [congruence|].
  intros i. destruct (H1 i) as [Ha|[Ha Ha']], (H2 i) as [Hb|[Hb Hb']].
  - left. congruence.
  - right. split; congruence.
  - right. split; congruence.
  - rewrite Ha' in Hb. by injection Hb.
Qed.

Lemma scan_eq_Delim l n : scan_eq l = Delim n → l !! n = Some EQUALS.
Proof.
  revert n. induction l as [|c l IH]; intros n; simpl; [done|].
  destruct (Ascii.eqb c EQUALS) eqn:Hc.
  - intros [= <-]. simpl. by apply Ascii.eqb_eq in Hc as ->.
  - destruct (Ascii.eqb c NUL); [done|].
    destruct (scan_eq l) as [n'| |]; [|done..].
    intros [= <-]. simpl. by apply IH.
Qed.

Lemma strsep_patched m p m1 token p1 :
  strsep m p = Some (m1, token, p1) → patched m m1.
Proof.
  unfold strsep. destruct (scan_eq (drop p m)) as [n|n|] eqn:Hscan; [| |done].
  - intros [= <- _ _]. apply scan_eq_Delim in Hscan.
    rewrite lookup_drop in Hscan. split; [by rewrite length_insert|].
    intros i. destruct (decide (i = p + n)) as [->|Hne].
    + right. split; [done|]. apply list_lookup_insert_eq.
      by eapply lookup_lt_Some.
    + left. by rewrite list_lookup_insert_ne.
  - intros [= <- _ _]. apply patched_refl.
Qed.

(** The loop always ends, by returning or at a fault, and what it does
    to the buffer is to overwrite ['='] bytes with NUL. *)
Lemma decode_loop_patched fuel nr m p e :
  0 < fuel → nr < p + fuel →
  ∃ m' e', patched m m' ∧
    (decode_loop fuel nr m p e = Done (m', e') ∨
     ∃ f, decode_loop fuel nr m p e = Fault f (m', e')).
Proof.
  revert m p e. induction fuel as [|fuel IH]; intros m p e Hpos Hlt; [lia|].
  simpl. destruct (m !! p) as [c|].
  2:{ exists m, e. split; [apply patched_refl|]. right. by eexists. }
  destruct (Ascii.eqb c NUL).
  { exists m, e. split; [apply patched_refl|]. by left. }
  destruct (p <? nr) eqn:Hp; simpl.
  2:{ exists m, e. split; [apply patched_refl|]. by left. }
  apply Nat.ltb_lt in Hp.
  destruct (strsep m p) as [[[m1 token] p1]|] eqn:Hsep.
  2:{ exists m, e. split; [apply patched_refl|]. right. by eexists. }
  pose proof (strsep_patched _ _ _ _ _ Hsep) as Hpatch.
  assert (token = p ∧ ∀ q, p1 = Some q → p < q) as [-> Hq].
  { revert Hsep. unfold strsep. destruct (scan_eq (drop p m)) as [n|n|];
      [| |done]; intros [= <- <- <-]; (split; [done|]); intros q [= <-]. lia. }
  destruct (cstring m1 p) as [name0|].
  2:{ exists m1, e. split; [done|]. right. by eexists. }
  destruct p1 as [q|].
  2:{ eexists m1, _. split; [done|]. right. by eexists. }
  specialize (Hq q eq_refl).
  destruct (m1 !! q) as [c'|].
  2:{ eexists m1, _. split; [done|]. right. by eexists. }
  destruct (Ascii.eqb c' NUL).
  - destruct (IH m1 (q + 1) (unsetenv name0 e)) as (m' & e' & Hp' & Hres);
      [lia..|].
    exists m', e'. split; [by eapply patched_trans|done].
  - destruct (cstring m1 q) as [value0|].
    2:{ eexists m1, _. split; [done|]. right. by eexists. }
    destruct (IH m1 (q + String.length value0 + 1)
                (setenv name0 value0 (unsetenv name0 e)))
      as (m' & e' & Hp' & Hres); [lia..|].
    exists m', e'. split; [by eapply patched_trans|done].
Qed.

End DecoderMore.

(** X9.  Whatever the buffer holds, the decoding of a chunk ends: it
    returns or stops at a fault.  The buffer keeps its size, and the only
    bytes that change are ['='] bytes overwritten with NUL. *)
Theorem decode_chunk_ends (nr : nat) (m : list ascii) (e : env) :
  ∃ m' e', patched m m' ∧
    (decode_chunk nr m e = Done (m', e') ∨
     ∃ f, decode_chunk nr m e = Fault f (m', e')).
Proof.
  unfold decode_chunk. apply decode_loop_patched; lia.
Qed.

Section Records.

Implicit Types (m pre rest t : list ascii) (e : env) (k v : string).

(** One turn on a record whose terminating NUL lies in the buffer but
    not necessarily in the chunk. *)
Lemma decode_loop_record_open fuel nr pre r t e :
  well_formed r → length pre < nr →
  decode_loop (S fuel) nr (pre ++ record_bytes r ++ t) (length pre) e =
  decode_loop fuel nr
    ((pre ++ bytes r.1 ++ NUL :: bytes r.2 ++ [NUL]) ++ t)
    (length pre + length (record_bytes r)) (apply_record e r).
Proof.
  destruct r as [k v]. intros (Hk1 & Hk2 & Hv) Hnr.
  rewrite length_record. simpl fst; simpl snd.
  assert (pre ++ record_bytes (k, v) ++ t
          = pre ++ bytes k ++ EQUALS :: bytes v ++ NUL :: t) as ->.
  { unfold record_bytes. by norm_app. }
  assert ((pre ++ bytes k ++ NUL :: bytes v ++ [NUL]) ++ t
          = pre ++ bytes k ++ NUL :: bytes v ++ NUL :: t) as ->.
  { by norm_app. }
  cbn [decode_loop]. rewrite lookup_after.
  destruct (head_bytes k EQUALS (bytes v ++ NUL :: t) Hk2) as (c0 & -> & ->);
    [done|].
  assert ((length pre <? nr) = true) as -> by (by apply Nat.ltb_lt).
  cbn [negb]. unfold strsep. rewrite drop_app_length.
  rewrite scan_eq_key by done.
  assert (<[length pre + String.length k := NUL]>
            (pre ++ bytes k ++ EQUALS :: bytes v ++ NUL :: t)
          = pre ++ bytes k ++ NUL :: bytes v ++ NUL :: t) as ->.
  { rewrite insert_app_r. f_equal.
    rewrite <- length_bytes, <- (Nat.add_0_r (length (bytes k))).
    by rewrite insert_app_r. }
  unfold cstring at 1. rewrite drop_app_length, cstr_bytes by done.
  assert (pre ++ bytes k ++ NUL :: bytes v ++ NUL :: t
          = (pre ++ bytes k ++ [NUL]) ++ bytes v ++ NUL :: t) as Hm.
  { by norm_app. }
  assert (length pre + String.length k + 1 = length (pre ++ bytes k ++ [NUL]))
    as Hq.
  { rewrite !length_app, length_bytes. simpl. lia. }
  rewrite Hm, Hq. rewrite lookup_after.
  unfold apply_record; simpl fst; simpl snd.
  destruct v as [|c v].
  - simpl. f_equal. rewrite <- Hq. lia.
  - simpl in Hv. apply andb_prop in Hv as [Hc Hv].
    apply negb_true_iff in Hc. simpl. rewrite Hc.
    unfold cstring. rewrite drop_app_length.
    change (c :: bytes v ++ NUL :: t) with (bytes (String c v) ++ NUL :: t).
    rewrite cstr_bytes by (unfold lacks; simpl; rewrite Hc; exact Hv).
    f_equal. rewrite <- Hq. simpl. lia.
Qed.

(** A chunk that starts with a string without ['=']. *)
Lemma decode_chunk_no_equals nr k t e :
  k ≠ EmptyString → lacks EQUALS k = true → lacks NUL k = true → 0 < nr →
  decode_chunk nr (bytes k ++ NUL :: t) e
  = Fault NullDeref (bytes k ++ NUL :: t, unsetenv k e).
Proof.
  intros Hk Heq Hnul Hnr. unfold decode_chunk. cbn [decode_loop].
  destruct k as [|c k]; [done|].
  pose proof Hnul as Hc. unfold lacks in Hc. simpl in Hc.
  apply andb_prop in Hc as [Hc _]. apply negb_true_iff in Hc.
  change ((bytes (String c k) ++ NUL :: t) !! 0) with (Some c).
  cbv beta iota. rewrite Hc.
  assert ((0 <? nr) = true) as -> by (by apply Nat.ltb_lt).
  cbn [negb]. unfold strsep. rewrite drop_0.
  rewrite scan_eq_unterminated by done.
  unfold cstring. by rewrite drop_0, cstr_bytes by done.
Qed.

Lemma drop_repeat {A} (x : A) (i j : nat) :
  drop i (repeat x j) = repeat x (j - i).
Proof.
  revert j. induction i as [|i IH]; intros [|j]; simpl; by try done.
Qed.

(** One turn of the read loop on a chunk that fits the buffer. *)
Lemma read_loop_chunk bufsiz chunk chunks m e :
  chunk ≠ [] → length chunk ≤ bufsiz →
  read_loop bufsiz (chunk :: chunks) m e =
  match decode_chunk (length chunk) (sys_read_into chunk m) e with
  | Done (m', e') => read_loop bufsiz chunks m' e'
  | other => other
  end.
Proof.
  intros Hne Hlen. simpl. rewrite take_ge by done. by destruct chunk.
Qed.

Lemma valid_name_lacks k :
  k ≠ EmptyString → lacks EQUALS k = true → valid_name k = true.
Proof.
  destruct k as [|c k]; [done|]. intros _. unfold valid_name, lacks.
  generalize (bytes (String c k)). intros l Hl.
  apply negb_true_iff. induction l as [|x l IH]; [done|].
  cbn [forallb existsb] in *.
  apply andb_prop in Hl as [Hx Hl]. apply negb_true_iff in Hx.
  rewrite Ascii.eqb_sym, Hx. by apply IH.
Qed.

Lemma apply_record_eq e k v :
  valid_name k = true → apply_record e (k, v) !! k = sent v.
Proof.
  intros Hk. unfold apply_record, unsetenv, setenv. simpl. rewrite Hk.
  destruct v; simpl; [apply lookup_delete_eq|apply lookup_insert_eq].
Qed.

Lemma apply_record_ne e k v k' :
  k' ≠ k → apply_record e (k, v) !! k' = e !! k'.
Proof.
  intros Hne. unfold apply_record, unsetenv, setenv. simpl.
  destruct (valid_name k); [|by destruct v].
  destruct v; simpl; [by rewrite lookup_delete_ne|].
  rewrite lookup_insert_ne by done. by rewrite lookup_delete_ne.
Qed.

Lemma apply_record_empty_key e v : apply_record e (EmptyString, v) = e.
Proof. unfold apply_record. simpl. by destruct v. Qed.

(** Records with distinct keys: each key ends as its record asks, and
    the other variables are left alone. *)
Lemma foldl_apply_record rs e :
  Forall (λ r, valid_name r.1 = true) rs → NoDup rs.*1 →
  (∀ k v, (k, v) ∈ rs → foldl apply_record e rs !! k = sent v) ∧
  (∀ k, k ∉ rs.*1 → foldl apply_record e rs !! k = e !! k).
Proof.
  intros Hvalid. revert e.
  induction Hvalid as [|[k0 v0] rs Hk0 _ IH]; intros e Hnd; simpl.
  - split; [by intros k v ?%elem_of_nil|done].
  - apply NoDup_cons in Hnd as [Hnot Hnd].
    destruct (IH (apply_record e (k0, v0)) Hnd) as [Hin Hout]. split.
    + intros k v [[= -> ->]|Hkv]%elem_of_cons; [|by apply Hin].
      rewrite Hout by done. by apply apply_record_eq.
    + intros k [Hne Hk]%not_elem_of_cons.
      rewrite Hout by done. by apply apply_record_ne.
Qed.

End Records.

(** X10.  A record [KEY=VALUE\0] that [read] delivers in two pieces,
    split inside VALUE before a part [v2] that holds no ['=']: from the
    first chunk the parent applies the record with the truncated value
    [v1]; in the second chunk it takes [v2] for a name, unsets it, and
    dereferences the null pointer that [strsep] left. *)
Theorem split_record_null_deref (bufsiz : nat) (k v1 v2 : string) (e : env) :
  well_formed (k, v1) →
  v2 ≠ EmptyString → lacks EQUALS v2 = true → lacks NUL v2 = true →
  String.length k + String.length v1 + 3 ≤ bufsiz →
  String.length v2 + 1 ≤ bufsiz →
  ∃ m', read_loop bufsiz [bytes k ++ EQUALS :: bytes v1; bytes v2 ++ [NUL]]
          (repeat NUL bufsiz) e
        = Fault NullDeref (m', unsetenv v2 (apply_record e (k, v1))).
Proof.
  intros Hwf Hv2 Heq Hnul Hlen1 Hlen2.
  set (chunk1 := bytes k ++ EQUALS :: bytes v1).
  assert (length chunk1 = String.length k + String.length v1 + 1) as Hc1.
  { unfold chunk1. rewrite length_app. simpl. rewrite !length_bytes. lia. }
  rewrite read_loop_chunk;
    [|intros Hnil; rewrite Hnil in Hc1; simpl in Hc1; lia|lia].
  (* the zero-filled rest of the buffer terminates the truncated record *)
  assert (sys_read_into chunk1 (repeat NUL bufsiz)
          = [] ++ record_bytes (k, v1)
            ++ NUL :: repeat NUL (bufsiz - length chunk1 - 2)) as ->.
  { unfold sys_read_into, record_bytes. rewrite drop_repeat.
    assert (repeat NUL (bufsiz - length chunk1)
            = NUL :: NUL :: repeat NUL (bufsiz - length chunk1 - 2)) as ->.
    { destruct (bufsiz - length chunk1) as [|[|n]] eqn:Hd; [lia..|].
      simpl. by rewrite Nat.sub_0_r. }
    unfold chunk1. by norm_app. }
  unfold decode_chunk at 1.
  rewrite (decode_loop_record_open (length chunk1) (length chunk1) [])
    by (done || simpl; lia).
  rewrite length_record. simpl fst; simpl snd.
  destruct (length chunk1) as [|n] eqn:Hn; [lia|].
  cbn [decode_loop].
  assert (length ([] ++ bytes k ++ NUL :: bytes v1 ++ [NUL])
          = length (@nil ascii) + (String.length k + String.length v1 + 2))
    as <-.
  { simpl. rewrite length_app. simpl. rewrite length_app, !length_bytes.
    simpl. lia. }
  rewrite lookup_after. cbn [head].
  change (Ascii.eqb NUL NUL) with true. cbv beta iota.
  (* the second chunk *)
  rewrite read_loop_chunk;
    [|by destruct (bytes v2)|rewrite length_app, length_bytes; simpl; lia].
  unfold sys_read_into. rewrite <- app_assoc. simpl app.
  rewrite decode_chunk_no_equals;
    [by eexists|done..|rewrite length_app; simpl; lia].
Qed.

(** X11.  A record with an empty key, [=VALUE\0], is skipped: libc
    rejects the empty name in [unsetenv] and [setenv], the code ignores
    what they return, and the chunk has the effect of its other
    records. *)
Theorem empty_key_skipped (rs1 rs2 : list (string * string)) (v : string)
    (rest : list ascii) (e : env) :
  Forall well_formed rs1 → Forall well_formed rs2 → lacks NUL v = true →
  rest ≠ [] →
  ∃ m', decode_chunk (length (wire (rs1 ++ (EmptyString, v) :: rs2)))
          (wire (rs1 ++ (EmptyString, v) :: rs2) ++ rest) e
        = Done (m', foldl apply_record e (rs1 ++ rs2)).
Proof.
  intros Hwf1 Hwf2 Hv Hrest.
  destruct (decode_chunk_records (rs1 ++ (EmptyString, v) :: rs2) rest e)
    as (m' & _ & Hdec); [|done|].
  { apply Forall_app. split; [done|]. by constructor. }
  exists m'. rewrite Hdec. f_equal. f_equal.
  rewrite !foldl_app. simpl. by rewrite apply_record_empty_key.
Qed.

(** X12.  Decoding gives back what was encoded.  For a chunk of whole
    records with non-empty, pairwise different keys: afterwards each key
    is set to the value of its record, or unset if that value is empty;
    every variable that no record names is as it was. *)
Theorem decode_round_trip (rs : list (string * string)) (rest : list ascii)
    (e : env) :
  Forall well_formed rs → Forall (λ r, r.1 ≠ EmptyString) rs →
  NoDup rs.*1 → rest ≠ [] →
  ∃ m' e',
    decode_chunk (length (wire rs)) (wire rs ++ rest) e = Done (m', e') ∧
    (∀ k v, (k, v) ∈ rs → e' !! k = sent v) ∧
    (∀ k, k ∉ rs.*1 → e' !! k = e !! k).
Proof.
  intros Hwf Hne Hnd Hrest.
  destruct (decode_chunk_records rs rest e Hwf Hrest) as (m' & _ & Hdec).
  exists m', (foldl apply_record e rs). split; [done|].
  apply foldl_apply_record; [|done].
  apply Forall_forall. intros [k v] Hin.
  rewrite Forall_forall in Hwf, Hne.
  apply valid_name_lacks; [by apply (Hne (k, v))|].
  by destruct (Hwf (k, v) Hin).
Qed.

(** * Further properties of [rc_waitpid] *)

Lemma WEXITSTATUS_range (status : Z) : (0 ≤ WEXITSTATUS status ≤ 255)%Z.
Proof.
  unfold WEXITSTATUS. rewrite Z.shiftr_land.
  change (Z.shiftr 65280 8) with (Z.ones 8).
  rewrite Z.land_ones by lia.
  pose proof (Z.mod_pos_bound (Z.shiftr status 8) (2 ^ 8)) as Hb. lia.
Qed.

Lemma waitpid_loop_range (savedpid : Z) (answers : list (Z * Z)) (retval : Z) :
  (-1 ≤ retval ≤ 255)%Z →
  (-1 ≤ waitpid_loop savedpid answers retval ≤ 255)%Z.
Proof.
  revert retval. induction answers as [|[pid status] answers IH];
    intros retval Hr; simpl; [done|].
  destruct (0 <? pid)%Z; [|done]. apply IH.
  destruct (pid =? savedpid)%Z; [|done].
  destruct (WIFEXITED status); [|unfold EXIT_FAILURE; lia].
  pose proof (WEXITSTATUS_range status). lia.
Qed.

(** X13.  Whatever [waitpid] answers, [rc_waitpid] returns -1 or a
    value from 0 to 255. *)
Theorem rc_waitpid_range (pid : Z) (answers : list (Z * Z)) :
  (-1 ≤ rc_waitpid pid answers ≤ 255)%Z.
Proof. apply waitpid_loop_range. lia. Qed.

(** X14.  A child that a signal killed is reported as [EXIT_FAILURE]:
    the caller cannot tell it from a hook that returned 1. *)
Theorem rc_waitpid_signaled (pid ret sig : Z) :
  (0 < pid)%Z → (0 < sig < 128)%Z →
  rc_waitpid pid [(pid, W_EXITCODE ret sig)] = EXIT_FAILURE ∧
  rc_waitpid pid [(pid, W_EXITCODE 1 0)] = EXIT_FAILURE.
Proof.
  intros Hpid Hsig. unfold rc_waitpid. cbn [waitpid_loop].
  assert ((0 <? pid)%Z = true) as -> by lia. rewrite Z.eqb_refl.
  rewrite WIFEXITED_exit, WEXITSTATUS_exit. split; [|done].
  assert (WIFEXITED (W_EXITCODE ret sig) = false) as ->; [|done].
  unfold WIFEXITED, W_EXITCODE. apply Z.eqb_neq.
  rewrite Z.land_lor_distr_l.
  assert (Z.land (Z.shiftl (Z.land ret 255) 8) 127 = 0%Z) as ->.
  { pose proof (WIFEXITED_exit ret) as Hex.
    unfold WIFEXITED, W_EXITCODE in Hex.
    change (Z.land 0 127) with 0%Z in Hex. rewrite Z.lor_0_r in Hex.
    by apply Z.eqb_eq in Hex. }
  rewrite Z.lor_0_l, <- Z.land_assoc, Z.land_diag.
  change 127%Z with (Z.ones 7). rewrite Z.land_ones by lia.
  rewrite Z.mod_small by (change (2 ^ 7)%Z with 128%Z; lia). lia.
Qed.




(** * Further properties of the dispatcher *)

Section RunMore.

Variables (w : world) (hk : rc_hook_t) (value : string).

Lemma track_app a t1 t2 :
  track a (t1 ++ t2) = track a t1 ≫= λ a', track a' t2.
Proof.
  revert a. induction t1 as [|ev t1 IH]; intros a; simpl; [done|].
  destruct ev as [msg|n pid e|pid r], a as [pid'|]; try done.
  destruct (pid =? pid')%Z; [apply IH|done].
Qed.

Lemma track_fcntl t :
  Forall (λ ev, ev = Eerror "fcntl") t → track None t = Some None.
Proof. induction 1 as [|ev t -> _ IH]; [done|]. exact IH. Qed.

(** What one turn adds to the log and does to the signal mask:
    a completed turn forks and reaps at most one child and restores the
    mask; the turn that leaves the loop after a failed [fork] leaves
    every signal blocked. *)
Lemma run_body_track c s :
  ∃ s' t alive,
    flow_state (run_body w hk value c s) = Some s' ∧
    log s' = log s ++ t ∧ track None t = Some alive ∧
    (∀ s2, run_body w hk value c s = Next s2 →
           alive = None ∧ sigmask s2 = sigmask s) ∧
    (∀ s2, run_body w hk value c s = Exit (Done s2) →
           alive = None ∧
           (sigmask s2 = sigmask s ∨
            sigmask s2 = sigfull ∧ last (log s2) = Some (Eerror "fork"))).
Proof.
  unfold run_body. destruct (hook c) as [f|].
  2:{ exists s, [], None. rewrite app_nil_r.
      split_and!; try done; by intros s2 [= <-]. }
  destruct (set_cloexec_log (kernel w (tick s)) (set_tick (S (tick s)) s))
    as (t & Hc & Ht).
  pose proof (track_fcntl _ Ht) as Htr.
  destruct (sys_pipe _).
  2:{ eexists _, [_], None. simpl.
      split_and!; try done; intros s2 [= <-]; auto. }
  simpl. rewrite Hc. simpl.
  destruct (sys_fork _) as [|pid]; simpl.
  { eexists _, (t ++ [_]), None. split_and!; try done.
    - simpl. by rewrite <- app_assoc.
    - by rewrite track_app, Htr.
    - intros s2 [= <-]. split; [done|]. right. simpl.
      split; [done|]. by rewrite last_snoc. }
  destruct (read_loop _ _ _ _) as [[m' e']|fl [m' e']|] eqn:Hread; simpl.
  - eexists _, (t ++ [_; _]), None. split_and!; try done.
    + simpl. by rewrite <- !app_assoc.
    + rewrite track_app, Htr. simpl. by rewrite Z.eqb_refl.
    + by intros s2 [= <-].
  - eexists _, (t ++ [_]), (Some pid). split_and!; try done.
    + simpl. by rewrite <- !app_assoc.
    + by rewrite track_app, Htr.
  - by apply read_loop_fuel in Hread.
Qed.

Lemma run_loop_track fuel p s s' :
  final (run_loop w hk value fuel p s) = Some s' →
  (heap s' = heap s ∧ plugins s' = plugins s ∧
   rc_in_plugin s' = rc_in_plugin s ∧ dl_open s' = dl_open s) ∧
  (∃ t alive, log s' = log s ++ t ∧ track None t = Some alive ∧
     (∀ s2, run_loop w hk value fuel p s = Done s2 → alive = None)) ∧
  (sigmask s' = sigmask s ∨ last (log s') = Some (Eerror "fork")).
Proof.
  revert p s. induction fuel as [|fuel IH]; intros [a|] s; simpl; try done.
  1,3: intros [= <-]; split_and!; try done; [|by left..];
       exists [], None; by rewrite app_nil_r.
  destruct (heap s !! a) as [[c|]|] eqn:Ha.
  2,3: intros [= <-]; split_and!; try done; [|by left..];
       exists [], None; by rewrite app_nil_r.
  destruct (run_body_track c s)
    as (s1 & t1 & alive1 & Hs1 & Hlog1 & Htr1 & Hnext & Hexit).
  destruct (run_body_frame w hk value c s s1 Hs1) as (Hh & Hp & Hin & Hdl).
  destruct (run_body w hk value c s) as [s2|r] eqn:Hbody.
  - injection Hs1 as ->. destruct (Hnext s1 eq_refl) as [-> Hsig].
    intros Hfin.
    destruct (IH _ _ Hfin) as ((? & ? & ? & ?) & (t & alive & Hlog & Htr & Hd)
                                & Hmask).
    split_and!; try congruence.
    exists (t1 ++ t), alive. split_and!; [|by rewrite track_app, Htr1|done].
    by rewrite Hlog, Hlog1, app_assoc.
  - unfold flow_state in Hs1. simpl in Hs1. intros Hfin.
    rewrite Hfin in Hs1. injection Hs1 as <-.
    split_and!; try done.
    + exists t1, alive1. split_and!; try done.
      intros s2 ->. by destruct (Hexit s2 eq_refl).
    + destruct r as [s2|fl s2|]; simpl in Hfin; [| |done].
      * injection Hfin as ->. destruct (Hexit s' eq_refl) as [_ [?|[_ ?]]];
          [by left|by right].
      * injection Hfin as ->. left.
        revert Hbody. unfold run_body. destruct (hook c) as [f|]; [|done].
        destruct (sys_pipe _); [|done]. simpl.
        destruct (set_cloexec_log (kernel w (tick s))
                    (set_tick (S (tick s)) s)) as (t0 & -> & _).
        destruct (sys_fork _) as [|pid]; [done|]. simpl.
        destruct (read_loop _ _ _ _) as [[m' e']|fl' [m' e']|]; [done| |done].
        by intros [= _ <-].
Qed.





End RunMore.

(** X15.  [rc_plugin_run] never touches the registry: when it ends, by
    returning or at a fault, the cells, the head of the chain, the
    references held and [rc_in_plugin] are as before, and the log has
    only grown. *)
Theorem run_keeps_registry (w : world) (hk : rc_hook_t) (value : string)
    (s s' : state) :
  final (rc_plugin_run w hk value s) = Some s' →
  heap s' = heap s ∧ plugins s' = plugins s ∧
  rc_in_plugin s' = rc_in_plugin s ∧ dl_open s' = dl_open s ∧
  ∃ t, log s' = log s ++ t.
Proof.
  unfold rc_plugin_run. destruct (rc_in_plugin s) eqn:Hin.
  - intros [= <-]. split_and!; try done. exists []. by rewrite app_nil_r.
  - intros Hfin.
    destruct (run_loop_track w hk value _ _ _ _ Hfin)
      as ((? & ? & ? & ?) & (t & _ & Hlog & _) & _).
    split_and!; try done; [congruence|by exists t].
Qed.


(** X17.  A run that does not end with a failed [fork] leaves the signal
    mask as it found it. *)
Theorem run_restores_signals (w : world) (hk : rc_hook_t) (value : string)
    (s s' : state) :
  final (rc_plugin_run w hk value s) = Some s' →
  last (log s') ≠ Some (Eerror "fork") →
  sigmask s' = sigmask s.
Proof.
  unfold rc_plugin_run. destruct (rc_in_plugin s) eqn:Hin.
  - by intros [= <-].
  - intros Hfin Hlast.
    by destruct (run_loop_track w hk value _ _ _ _ Hfin) as (_ & _ & [?|?]).
Qed.

(** The content of the mask that is installed around [fork]. *)
Lemma elem_of_sigfull (n : nat) : n ∈ sigfull ↔ blockable n.
Proof.
  unfold sigfull, sigfillset, blockable.
  rewrite !list_elem_of_filter, elem_of_seq. lia.
Qed.

(** X18.  After a failed [fork] the loop is left before the old mask is
    put back: [rc_plugin_run] returns with the mask it installed for the
    fork, in which the signals from 1 to 64 are blocked except SIGKILL
    and SIGSTOP, which cannot be blocked, and 32 and 33, which
    [sigfillset] leaves out; whatever the mask of the caller was. *)
Theorem fork_failure_blocks_signals (w : world) (hk : rc_hook_t)
    (value : string) (s s1 : state) (pre post : list plugin_t) (c : plugin_t)
    (f : hook_fn) :
  rc_in_plugin s = false →
  registry s (pre ++ c :: post) →
  run_through w hk value pre s = Next s1 →
  hook c = Some f →
  sys_pipe (kernel w (tick s1)) = true →
  sys_fork (kernel w (tick s1)) = ForkFailed →
  ∃ s', rc_plugin_run w hk value s = Done s' ∧
        sigmask s' = sigfull ∧
        (∀ n, n ∈ sigmask s' ↔
              1 ≤ n ≤ 64 ∧ n ≠ 9 ∧ n ≠ 19 ∧ n ≠ 32 ∧ n ≠ 33) ∧
        length (sigmask s') = 60.
Proof.
  intros Hin Hreg Hpre Hf Hp Hfork.
  rewrite (rc_plugin_run_at w hk value pre c post s s1 Hin Hreg Hpre).
  destruct (run_body_fork_failed w hk value c s1 f Hf Hp Hfork)
    as (t & Ht & ->).
  eexists. split; [done|]. simpl. split_and!; [done| |done].
  intros n. apply elem_of_sigfull.
Qed.

Lemma hooked_all (l : list plugin_t) :
  Forall (λ c, is_Some (hook c)) l → filter (λ c, is_Some (hook c)) l = l.
Proof.
  induction 1 as [|c l Hc _ IH]; [done|].
  rewrite filter_cons_True by done. by rewrite IH.
Qed.

(** X19.  Load, then run: after the first load of a listing, the
    plugins that a run dispatches are the first [k] loadable entries of
    the listing, in scan order. *)
Theorem load_then_run_order (w : world) (hk : rc_hook_t) (value : string)
    (s : state) (ents : list string) :
  rc_in_plugin s = false → plugins s = None → opendir w = Some ents →
  ∃ s1 s2 k,
    rc_plugin_load w s = Done s1 ∧
    final (rc_plugin_run w hk value s1) = Some s2 ∧
    (forks (log s2)).*1 =
      (forks (log s)).*1 ++ take k ((loadable w ents).*1.*1).
Proof.
  intros Hin Hp Hdir.
  destruct (rc_plugin_load_empty w s ents Hin Hp Hdir)
    as (s1 & l & Hload & Hreg & Hl & _ & _ & Hlog).
  assert (rc_in_plugin s1 = false) as Hin1.
  { revert Hload. unfold rc_plugin_load, rc_plugin_unload.
    rewrite Hin, Hp, Hdir. simpl. intros Hload.
    destruct (load_loop_spec w ents None (set_plugins None s) [])
      as (s1' & l' & Hload' & _ & _ & _ & _ & _ & Hin'); [done|].
    rewrite Hload in Hload'. injection Hload' as <-.
    simpl in Hin'. congruence. }
  destruct (run_through_forks w hk value l s1) as (s2 & k & Hs2 & Hk).
  exists s1, s2, k. split; [done|].
  rewrite (rc_plugin_run_registry w hk value l s1 Hin1 Hreg).
  split; [done|].
  rewrite Hk, Hlog, forks_app, forks_load_errors, app_nil_r.
  do 2 f_equal. unfold hooked.
  assert (filter (λ c, is_Some (hook c)) l = l) as ->.
  { apply hooked_all. apply Forall_forall. intros c Hc.
    assert (entry_of c ∈ loadable w ents) as Hel.
    { rewrite <- Hl. by apply list_elem_of_fmap_2. }
    apply loadable_elem in Hel as (_ & fptr & Hhook & _).
    simpl in Hhook. by rewrite Hhook. }
  rewrite <- Hl, <- !list_fmap_compose. done.
Qed.

Lemma bytes_app (v1 v2 : string) : bytes (v1 +:+ v2) = bytes v1 ++ bytes v2.
Proof. induction v1 as [|c v1 IH]; simpl; [done|]. by rewrite <- IH. Qed.

(** X20.  The count [nr] bounds where a record may start, not where its
    value ends: when the last record of a chunk comes without its NUL,
    the value runs on through the bytes that an earlier [read] left in
    the buffer ([stale]), up to the first NUL there. *)
Theorem value_runs_past_chunk (k v stale : string) (t : list ascii) (e : env) :
  well_formed (k, v +:+ stale) → t ≠ [] →
  ∃ m', decode_chunk (String.length k + 1 + String.length v)
          (bytes k ++ EQUALS :: bytes v ++ bytes stale ++ NUL :: t) e
        = Done (m', apply_record e (k, v +:+ stale)).
Proof.
  intros Hwf Ht. unfold decode_chunk.
  assert (bytes k ++ EQUALS :: bytes v ++ bytes stale ++ NUL :: t
          = [] ++ record_bytes (k, v +:+ stale) ++ t) as ->.
  { unfold record_bytes. simpl. rewrite bytes_app. by norm_app. }
  rewrite decode_loop_record_open by (done || simpl; lia).
  rewrite length_record. simpl fst; simpl snd.
  replace (String.length k + 1 + String.length v)
    with (S (String.length k + String.length v)) by lia.
  cbn [decode_loop].
  assert (length ([] ++ bytes k ++ NUL :: bytes (v +:+ stale) ++ [NUL])
          = length (@nil ascii)
            + (String.length k + String.length (v +:+ stale) + 2)) as Hlen.
  { simpl. rewrite length_app. simpl. rewrite length_app, !length_bytes.
    simpl. lia. }
  rewrite <- Hlen, lookup_after.
  destruct t as [|c t]; [done|]. cbn [head].
  destruct (Ascii.eqb c NUL); [by eexists|].
  assert ((length ([] ++ bytes k ++ NUL :: bytes (v +:+ stale) ++ [NUL])
           <? S (String.length k + String.length v)) = false) as ->.
  { apply Nat.ltb_ge. rewrite Hlen.
    rewrite <- (length_bytes (v +:+ stale)), bytes_app, length_app.
    rewrite !length_bytes. simpl. lia. }
  by eexists.
Qed.

(** The [readdir] loop started with a stale [plugin]. *)
Lemma load_loop_stale (w : world) (ents : list string) (a : addr) (s : state) :
  heap s !! a = Some None → loadable w ents ≠ [] →
  ∃ s', load_loop w ents (Some a) s = Fault UseAfterFree s' ∧
        plugins s' = plugins s ∧ heap s' = heap s ++ [Some blank] ∧
        environ s' = environ s.
Proof.
  revert s. induction ents as [|d_name rest IH]; intros s Ha; simpl; [done|].
  destruct (hidden d_name); [by apply IH|].
  destruct (dlopen w d_name) as [h|].
  - destruct (dlfunc w h) as [fptr|].
    + intros _. rewrite (lookup_app_l_Some _ _ _ _ Ha). by eexists.
    + intros Hne.
      destruct (IH (dlclose h (eerror (no_symbol d_name) (sys_dlopen h s))))
        as (s' & -> & Hp & Hh & He); [done..|]. by exists s'.
  - intros Hne.
    destruct (IH (eerror "dlopen" s)) as (s' & -> & Hp & Hh & He); [done..|].
    by exists s'.
Qed.

(** X21.  A reload of a populated registry, from a listing in which
    something loads, stops at the first entry that loads: the local
    [plugin] still points to the first cell of the chain that
    [rc_plugin_unload] has just freed, and the new record is linked
    through it.  At that point every old record is freed and [plugins]
    is null. *)
Theorem reload_use_after_free (w : world) (s : state) (l : list plugin_t)
    (ents : list string) :
  rc_in_plugin s = false → registry s l → l ≠ [] →
  opendir w = Some ents → loadable w ents ≠ [] →
  ∃ s', rc_plugin_load w s = Fault UseAfterFree s' ∧
        plugins s' = None ∧
        (∀ a, a ∈ path (plugins s) l → heap s' !! a = Some None) ∧
        environ s' = environ s.
Proof.
  intros Hin Hreg Hne Hdir Hload.
  unfold rc_plugin_load. rewrite Hin, Hdir.
  destruct (rc_plugin_unload_registry s l Hreg)
    as (s1 & -> & Hp1 & Hfreed & _ & _ & _ & (_ & Henv & _)).
  destruct l as [|c l]; [done|]. destruct Hreg as (a & Ha & _).
  rewrite Ha in *.
  destruct (load_loop_stale w ents a s1) as (s' & -> & Hp & Hh & He); [|done|].
  { apply Hfreed. simpl. apply elem_of_cons. by left. }
  exists s'. split_and!; [done|congruence| |congruence].
  intros a' Ha'. rewrite Hh. apply lookup_app_l_Some. by apply Hfreed.
Qed.

(** * The sample host, continued *)

Lemma first_load_builds_registry_witness :
  ∃ s' l,
    rc_plugin_load (plugindir kernel_ok) host = Done s' ∧ registry s' l ∧
    entry_of <$> l
      = loadable (plugindir kernel_ok)
          ["."; ".."; "a.so"; "nohook.so"; "b.so"; "README"] ∧
    Forall (λ c, is_Some (hook c)) l ∧
    live (heap s') = live (heap host) + length l ∧
    dl_open s' = reverse (handle <$> l) ++ dl_open host ∧
    environ s' = environ host ∧
    log s' = log host
             ++ load_errors (plugindir kernel_ok)
                  ["."; ".."; "a.so"; "nohook.so"; "b.so"; "README"].
Proof.
  apply (first_load_builds_registry (plugindir kernel_ok) host); reflexivity.
Defined.

Lemma load_ignores_hidden_witness :
  rc_plugin_load (plugindir kernel_ok) host = rc_plugin_load dotdir host.
Proof.
  apply (load_ignores_hidden (plugindir kernel_ok) dotdir host).
  - reflexivity.
  - intros d_name ents _ _ Hh. simpl. rewrite Hh. reflexivity.
  - reflexivity.
Defined.

Lemma unload_releases_all_witness :
  ∃ s', rc_plugin_unload loaded = Done s' ∧ registry s' [] ∧
        (∀ a, a ∈ path (plugins loaded) [cell_a; cell_b] →
              heap s' !! a = Some None) ∧
        live (heap s') + length [cell_a; cell_b] = live (heap loaded) ∧
        dl_open s' = release_all (handle <$> [cell_a; cell_b]) (dl_open loaded) ∧
        same_process loaded s'.
Proof. apply (unload_releases_all loaded), registry_loaded. Defined.

Lemma unload_idempotent_witness : rc_plugin_unload unloaded = Done unloaded.
Proof. apply (unload_idempotent loaded unloaded). reflexivity. Defined.

Lemma load_unload_round_trip_witness :
  ∃ s1 s2,
    rc_plugin_load (plugindir kernel_ok) host = Done s1 ∧
    rc_plugin_unload s1 = Done s2 ∧
    registry s2 [] ∧ live (heap s2) = live (heap host) ∧
    dl_open s2 = dl_open host ∧ environ s2 = environ host.
Proof.
  apply (load_unload_round_trip (plugindir kernel_ok) host
           ["."; ".."; "a.so"; "nohook.so"; "b.so"; "README"]); reflexivity.
Defined.

Lemma unload_then_load_witness :
  ∃ s1 s2 l2,
    rc_plugin_unload loaded = Done s1 ∧
    rc_plugin_load (plugindir kernel_ok) s1 = Done s2 ∧
    registry s2 l2 ∧
    entry_of <$> l2
      = loadable (plugindir kernel_ok)
          ["."; ".."; "a.so"; "nohook.so"; "b.so"; "README"] ∧
    dl_open s2 = reverse (handle <$> l2)
                 ++ release_all (handle <$> [cell_a; cell_b]) (dl_open loaded).
Proof.
  apply (unload_then_load (plugindir kernel_ok) loaded [cell_a; cell_b]);
    [reflexivity|exact registry_loaded|reflexivity].
Defined.

Lemma load_missing_directory_witness :
  ∃ s', rc_plugin_load nodir loaded = Done s' ∧ registry s' [] ∧
        live (heap s') + length [cell_a; cell_b] = live (heap loaded) ∧
        dl_open s' = release_all (handle <$> [cell_a; cell_b]) (dl_open loaded) ∧
        environ s' = environ loaded ∧ log s' = log loaded.
Proof.
  apply (load_missing_directory nodir loaded [cell_a; cell_b]);
    [reflexivity|exact registry_loaded|reflexivity].
Defined.

Lemma reload_nothing_loadable_witness :
  ∃ s', rc_plugin_load emptydir loaded = Done s' ∧ registry s' [] ∧
        live (heap s') + length [cell_a; cell_b] = live (heap loaded) ∧
        dl_open s' = release_all (handle <$> [cell_a; cell_b]) (dl_open loaded) ∧
        environ s' = environ loaded ∧
        log s' = log loaded
                 ++ load_errors emptydir ["."; ".."; "nohook.so"; "README"].
Proof.
  apply (reload_nothing_loadable emptydir loaded [cell_a; cell_b]);
    [reflexivity|exact registry_loaded|reflexivity..].
Defined.

Lemma reload_use_after_free_witness :
  ∃ s', rc_plugin_load (plugindir kernel_ok) loaded = Fault UseAfterFree s' ∧
        plugins s' = None ∧
        (∀ a, a ∈ path (plugins loaded) [cell_a; cell_b] →
              heap s' !! a = Some None) ∧
        environ s' = environ loaded.
Proof.
  apply (reload_use_after_free (plugindir kernel_ok) loaded
           [cell_a; cell_b] ["."; ".."; "a.so"; "nohook.so"; "b.so"; "README"]);
    [reflexivity|exact registry_loaded|discriminate|reflexivity|discriminate].
Defined.

(** [FOO=bar\0] delivered as [FOO=ba] and [r\0]. *)
Lemma split_record_null_deref_witness :
  ∃ m', read_loop 64 [bytes "FOO" ++ EQUALS :: bytes "ba"; bytes "r" ++ [NUL]]
          (repeat NUL 64) ∅
        = Fault NullDeref (m', unsetenv "r" (apply_record ∅ ("FOO", "ba"))).
Proof.
  apply (split_record_null_deref 64 "FOO" "ba" "r" ∅);
    [repeat split|discriminate|reflexivity|reflexivity|simpl; lia|simpl; lia].
Defined.

Lemma empty_key_skipped_witness :
  ∃ m', decode_chunk (length (wire ([("A", "1")] ++ [("", "x")])))
          (wire ([("A", "1")] ++ [("", "x")]) ++ [NUL]) ∅
        = Done (m', foldl apply_record ∅ ([("A", "1")] ++ [])).
Proof.
  apply (empty_key_skipped [("A", "1")] [] "x" [NUL] ∅);
    [repeat constructor|constructor|reflexivity|discriminate].
Defined.

Lemma decode_round_trip_witness :
  ∃ m' e',
    decode_chunk (length (wire [("FOO", "bar"); ("BAZ", "")]))
      (wire [("FOO", "bar"); ("BAZ", "")] ++ [NUL]) {["BAZ" := "old"]}
    = Done (m', e') ∧
    (∀ k v, (k, v) ∈ [("FOO", "bar"); ("BAZ", "")] → e' !! k = sent v) ∧
    (∀ k, k ∉ [("FOO", "bar"); ("BAZ", "")].*1 →
          e' !! k = ({["BAZ" := "old"]} : env) !! k).
Proof.
  apply (decode_round_trip [("FOO", "bar"); ("BAZ", "")] [NUL]).
  - repeat constructor.
  - repeat constructor; discriminate.
  - repeat constructor; vm_compute; intros Hin; inversion Hin; subst;
      match goal with H : _ ∈ [] |- _ => inversion H end.
  - discriminate.
Defined.

Lemma rc_waitpid_signaled_witness :
  rc_waitpid 42 [(42%Z, W_EXITCODE 0 9)] = EXIT_FAILURE ∧
  rc_waitpid 42 [(42%Z, W_EXITCODE 1 0)] = EXIT_FAILURE.
Proof. apply (rc_waitpid_signaled 42 0 9); lia. Defined.

Lemma run_keeps_registry_witness :
  heap ran = heap loaded ∧ plugins ran = plugins loaded ∧
  rc_in_plugin ran = rc_in_plugin loaded ∧ dl_open ran = dl_open loaded ∧
  ∃ t, log ran = log loaded ++ t.
Proof.
  apply (run_keeps_registry (plugindir kernel_ok) 0%Z "boot" loaded ran).
  vm_compute. reflexivity.
Defined.



Lemma run_restores_signals_witness : sigmask ran = sigmask loaded.
Proof.
  apply (run_restores_signals (plugindir kernel_ok) 0%Z "boot" loaded ran).
  - vm_compute. reflexivity.
  - vm_compute. discriminate.
Defined.

Lemma fork_failure_blocks_signals_witness :
  ∃ s', rc_plugin_run (plugindir kernel_nofork) 0%Z "boot" loaded = Done s' ∧
        sigmask s' = sigfull ∧
        (∀ n, n ∈ sigmask s' ↔
              1 ≤ n ≤ 64 ∧ n ≠ 9 ∧ n ≠ 19 ∧ n ≠ 32 ∧ n ≠ 33) ∧
        length (sigmask s') = 60.
Proof.
  apply (fork_failure_blocks_signals (plugindir kernel_nofork) 0%Z "boot"
           loaded loaded [] [cell_b] cell_a hook_a);
    [reflexivity|exact registry_loaded|reflexivity..].
Defined.

Lemma load_then_run_order_witness :
  ∃ s1 s2 k,
    rc_plugin_load (plugindir kernel_ok) host = Done s1 ∧
    final (rc_plugin_run (plugindir kernel_ok) 0%Z "boot" s1) = Some s2 ∧
    (forks (log s2)).*1 =
      (forks (log host)).*1
      ++ take k ((loadable (plugindir kernel_ok)
                    ["."; ".."; "a.so"; "nohook.so"; "b.so"; "README"]).*1.*1).
Proof.
  apply (load_then_run_order (plugindir kernel_ok) 0%Z "boot" host);
    reflexivity.
Defined.

(** The chunk [C=d] read over a buffer that still holds [AAAA\0...]. *)
Lemma value_runs_past_chunk_witness :
  ∃ m', decode_chunk (String.length "C" + 1 + String.length "d")
          (bytes "C" ++ EQUALS :: bytes "d" ++ bytes "A" ++ NUL :: [NUL]) ∅
        = Done (m', apply_record ∅ ("C", "d" +:+ "A")).
Proof.
  apply (value_runs_past_chunk "C" "d" "A" [NUL] ∅);
    [repeat split|discriminate].
Defined.
